(** * aws-events-platform: the DynamoDB storage adapter

    A shallow embedding of [storage/ddb.ts]: the event stack
    ([createDDBStack]: [commitEvent], [commitAnonymousEvent], [getEvent],
    [slice]), the stack registry ([ddbStore]: [name], [getStack],
    [createStack], [getOrCreateStack]) and the view cache ([ddbViewCache]:
    [getFromCache], [updateCache]).

    The adapter talks to a DynamoDB table through the document client.  The
    table is the state that every operation threads: an [async] function
    becomes a function from the table to an outcome and the table it leaves.
    The requests the adapter sends (a transaction of a conditional [Put] and
    a [ConditionCheck], a conditional [put], a partition [query], a [get])
    are given the meaning the store gives them, in the modules [Events] and
    [Views] below.
    The store is taken to be reachable: transport failures and throttling
    are not in the model, and a query answers in one page.  The client of
    the view cache is optional, as in the source.  Numbers are integers
    ([Z]). *)

From stdpp Require Import gmap strings list sorting list_numbers.
From Stdlib Require Import ZArith Lia.
From Stdlib Require Import Ascii.

Local Open Scope string_scope.
Local Open Scope Z_scope.

(** ** JavaScript values and objects *)

Inductive value :=
  | VNum (n : Z)
  | VStr (s : string)
  | VBool (b : bool)
  | VNull.

#[global] Instance value_eq_dec : EqDecision value.
Proof. solve_decision. Defined.

(** A plain object: its own properties by name.  A DynamoDB item is one. *)
Abbreviation obj := (gmap string value).

Definition get_num (o : obj) (a : string) : option Z :=
  match o !! a with Some (VNum n) => Some n | _ => None end.

Definition get_str (o : obj) (a : string) : option string :=
  match o !! a with Some (VStr s) => Some s | _ => None end.

(** ** Exceptions and outcomes of an [async] call *)

Record Exception := { ex_name : string; ex_message : option string }.

Inductive outcome (A : Type) :=
  | Returned (a : A)
  | Thrown (ex : Exception).
Arguments Returned {A} a.
Arguments Thrown {A} ex.

#[global] Instance Exception_eq_dec : EqDecision Exception.
Proof. solve_decision. Defined.

#[global] Instance outcome_eq_dec `{EqDecision A} : EqDecision (outcome A).
Proof. solve_decision. Defined.

(** [s.indexOf(pat)]: the position of the first occurrence, [-1] if none. *)
Definition indexOf (s pat : string) : Z :=
  match String.index 0 pat s with
  | Some n => Z.of_nat n
  | None => -1
  end.

(** [~ex?.message?.indexOf(pat)].  Without a message the chain gives
    [undefined], and [~undefined] is [-1]. *)
Definition not_indexOf (ex : Exception) (pat : string) : Z :=
  match ex_message ex with
  | Some m => Z.lnot (indexOf m pat)
  | None => -1
  end.

(** A number used as a condition: every number but zero is truthy. *)
Definition truthy (n : Z) : bool := negb (n =? 0).

(** ** The store *)

(** Condition expressions, with the attribute names already substituted. *)
Inductive cond :=
  | attribute_not_exists (a : string)
  | attribute_exists (a : string)
  | attribute_lt (a : string) (n : Z)
  | cond_or (c1 c2 : cond).

(** A condition is evaluated on the item that the request's key names, if
    there is one. *)
Fixpoint eval_cond (c : cond) (existing : option obj) : bool :=
  match c with
  | attribute_not_exists a =>
      match existing with
      | Some o => bool_decide (o !! a = None)
      | None => true
      end
  | attribute_exists a =>
      match existing with
      | Some o => bool_decide (is_Some (o !! a))
      | None => false
      end
  | attribute_lt a n =>
      match existing with
      | Some o =>
          match get_num o a with
          | Some x => x <? n
          | None => false
          end
      | None => false
      end
  | cond_or c1 c2 => eval_cond c1 existing || eval_cond c2 existing
  end.

(** The store refuses an item that lacks a key attribute or has one of the
    wrong type. *)
Definition ValidationException : Exception :=
  {| ex_name := "ValidationException";
     ex_message := Some "One or more parameter values were invalid" |}.

Module Events.

(** The events table: partition key [namespace] (a string), sort key [id]
    (a number). *)
Abbreviation key := (string * Z)%type.
Abbreviation table := (gmap (string * Z) obj).

Definition key_of (item : obj) : option key :=
  match get_str item "namespace", get_num item "id" with
  | Some ns, Some i => Some (ns, i)
  | _, _ => None
  end.

(** An item read from the table carries its two key attributes. *)
Definition item_at (k : key) (o : obj) : obj :=
  <["namespace" := VStr k.1]> (<["id" := VNum k.2]> o).

Definition get (db : table) (k : key) : option obj :=
  item_at k <$> db !! k.

Inductive TransactItem :=
  | Put (Item : obj) (ConditionExpression : cond)
  | ConditionCheck (Key : key) (ConditionExpression : cond).

Definition target (it : TransactItem) : option key :=
  match it with
  | Put item _ => key_of item
  | ConditionCheck k _ => Some k
  end.

Definition condition (it : TransactItem) : cond :=
  match it with
  | Put _ c => c
  | ConditionCheck _ c => c
  end.

(** Why one item of a cancelled transaction did not go through. *)
Inductive reason := ConditionalCheckFailed | None_.

#[global] Instance reason_eq_dec : EqDecision reason.
Proof. solve_decision. Defined.

Definition reason_code (r : reason) : string :=
  match r with
  | ConditionalCheckFailed => "ConditionalCheckFailed"
  | None_ => "None"
  end.

Definition reason_of (db : table) (it : TransactItem) : reason :=
  match target it with
  | Some k => if eval_cond (condition it) (get db k) then None_
              else ConditionalCheckFailed
  | None => None_
  end.

Fixpoint join (sep : string) (l : list string) : string :=
  match l with
  | [] => ""
  | [s] => s
  | s :: l' => s +:+ sep +:+ join sep l'
  end.

(** The store reports a cancelled transaction with one reason per item, in
    the order of the request. *)
Definition TransactionCanceledException (rs : list reason) : Exception :=
  {| ex_name := "TransactionCanceledException";
     ex_message := Some
       ("Transaction cancelled, please refer cancellation reasons for specific reasons ["
        +:+ join ", " (reason_code <$> rs) +:+ "]") |}.

Definition apply_item (db : table) (it : TransactItem) : table :=
  match it with
  | Put item _ =>
      match key_of item with
      | Some k => <[k := item]> db
      | None => db
      end
  | ConditionCheck _ _ => db
  end.

(** [transactWrite]: every condition is evaluated on the table as it is; if
    all hold, all the puts are applied, and otherwise none is. *)
Definition transactWrite (items : list TransactItem) (db : table)
  : outcome unit * table :=
  if bool_decide (Forall (λ it, is_Some (target it)) items) then
    let rs := reason_of db <$> items in
    if bool_decide (Forall (λ r, r = None_) rs)
    then (Returned tt, foldl apply_item db items)
    else (Thrown (TransactionCanceledException rs), db)
  else (Thrown ValidationException, db).

End Events.

Module Query.

(** A [query] on the events table: the partition [namespace], optionally
    the sort-key condition [#id >= :start], the direction and the limit. *)
Record input := {
  namespace : string;
  start : option Z;
  ScanIndexForward : bool;
  Limit : option nat }.

End Query.

(** The sort keys present in a partition. *)
Definition partition_ids (db : Events.table) (ns : string) : list Z :=
  snd <$> filter (λ k : Events.key, k.1 = ns) (map_to_list db).*1.

Definition in_range (start : option Z) (i : Z) : bool :=
  match start with
  | Some s => s <=? i
  | None => true
  end.

(** The store answers a query with the items of the partition that meet the
    key condition, in the order of the sort key (ascending, or descending
    when [ScanIndexForward] is false), cut at [Limit]. *)
Definition query (q : Query.input) (db : Events.table) : list obj :=
  let ids := filter (λ i, in_range (Query.start q) i = true)
                    (partition_ids db (Query.namespace q)) in
  let ordered := if Query.ScanIndexForward q
                 then merge_sort Z.le ids
                 else merge_sort Z.ge ids in
  let page := match Query.Limit q with
              | Some n => take n ordered
              | None => ordered
              end in
  omap (λ i, Events.get db (Query.namespace q, i)) page.

(** ** The event stack ([createDDBStack]) *)

Record DDBStackOptions := {
  tablename : string;
  namespace : string }.

(** An event handed to the stack: its [id] and its other properties. *)
Record ESEvent := {
  ev_id : Z;
  ev_fields : obj }.

(** The event as the object it is: [id] together with the rest. *)
Definition ESEvent_obj (ev : ESEvent) : obj :=
  <["id" := VNum (ev_id ev)]> (ev_fields ev).

(** [{ ...ev, namespace: options.namespace }] *)
Definition event_item (options : DDBStackOptions) (ev : ESEvent) : obj :=
  <["namespace" := VStr (namespace options)]> (ESEvent_obj ev).

Definition transactItems (options : DDBStackOptions) (ev : ESEvent)
  : list Events.TransactItem :=
  let event := event_item options ev in
  [Events.Put event (attribute_not_exists "namespace")]
  ++ (if negb (ev_id ev =? 0)
      then [Events.ConditionCheck (namespace options, ev_id ev - 1)
                                  (attribute_exists "namespace")]
      else []).

(** The two tests of the [catch] block, on the exception it caught. *)
Definition already_exists (ex : Exception) : bool :=
  truthy (not_indexOf ex "[ConditionalCheckFailed").

Definition too_far_ahead (ex : Exception) : bool :=
  truthy (not_indexOf ex "ConditionalCheckFailed]").

(** [commitEvent].  The [catch] block logs and throws the exception again as
    it caught it; the console is not part of the state. *)
Definition commitEvent (options : DDBStackOptions) (ev : ESEvent)
    (db : Events.table) : outcome unit * Events.table :=
  if ev_id ev <? 0 then (Returned tt, db)
  else
    match Events.transactWrite (transactItems options ev) db with
    | (Returned _, db') => (Returned tt, db')
    | (Thrown ex, db') => (Thrown ex, db')
    end.

(** [{ ...ev, id: nextEventId }] *)
Definition with_id (ev : ESEvent) (i : Z) : ESEvent :=
  {| ev_id := i; ev_fields := ev_fields ev |}.

Definition tail_query (options : DDBStackOptions) : Query.input :=
  {| Query.namespace := namespace options;
     Query.start := None;
     Query.ScanIndexForward := false;
     Query.Limit := Some 1%nat |}.

(** [(lastEvent?.id ?? -1) + 1] *)
Definition nextEventId (options : DDBStackOptions) (db : Events.table) : Z :=
  let lastEvent := head (query (tail_query options) db) in
  default (-1) (lastEvent ≫= λ e, get_num e "id") + 1.

Definition commitAnonymousEvent (options : DDBStackOptions) (ev : ESEvent)
    (db : Events.table) : outcome unit * Events.table :=
  commitEvent options (with_id ev (nextEventId options db)) db.

(** [getEvent]: the item, or nothing ([undefined]). *)
Definition getEvent (options : DDBStackOptions) (i : Z) (db : Events.table)
  : option obj :=
  Events.get db (namespace options, i).

(** [slice], called with a [start].  The query it sends has the key
    condition [#ns=:ns and #id >= :start] and nothing else; [end_] does not
    occur in the body. *)
Definition slice (options : DDBStackOptions) (start : Z) (end_ : option Z)
    (db : Events.table) : list obj :=
  query {| Query.namespace := namespace options;
           Query.start := Some start;
           Query.ScanIndexForward := true;
           Query.Limit := None |} db.

Definition ids_of (items : list obj) : list Z :=
  omap (λ e, get_num e "id") items.

(** ** The store, as the stack sees it *)

Lemma get_is_Some (db : Events.table) (k : Events.key) :
  is_Some (Events.get db k) ↔ is_Some (db !! k).
Proof. unfold Events.get. apply fmap_is_Some. Qed.

Lemma get_None (db : Events.table) (k : Events.key) :
  Events.get db k = None ↔ db !! k = None.
Proof. unfold Events.get. apply fmap_None. Qed.

Lemma item_at_id (k : Events.key) (o : obj) :
  get_num (Events.item_at k o) "id" = Some k.2.
Proof.
  unfold get_num, Events.item_at.
  rewrite lookup_insert_ne by done. by rewrite lookup_insert_eq.
Qed.

Lemma item_at_namespace (k : Events.key) (o : obj) :
  Events.item_at k o !! "namespace" = Some (VStr k.1).
Proof. unfold Events.item_at. by rewrite lookup_insert_eq. Qed.

(** On a stored item the partition key is always there, so the two
    conditions of [commitEvent] test whether an item is stored. *)
Lemma not_exists_spec (db : Events.table) (k : Events.key) :
  eval_cond (attribute_not_exists "namespace") (Events.get db k)
  = bool_decide (db !! k = None).
Proof.
  unfold Events.get. destruct (db !! k) as [o|]; simpl.
  - rewrite item_at_namespace. by case_bool_decide.
  - done.
Qed.

Lemma exists_spec (db : Events.table) (k : Events.key) :
  eval_cond (attribute_exists "namespace") (Events.get db k)
  = bool_decide (is_Some (db !! k)).
Proof.
  unfold Events.get. destruct (db !! k) as [o|]; simpl.
  - rewrite item_at_namespace. case_bool_decide as H; [done|].
    destruct H. eauto.
  - done.
Qed.

Lemma key_of_event_item (options : DDBStackOptions) (ev : ESEvent) :
  Events.key_of (event_item options ev) = Some (namespace options, ev_id ev).
Proof.
  unfold Events.key_of, get_str, get_num, event_item, ESEvent_obj.
  rewrite lookup_insert_eq, lookup_insert_ne by done.
  by rewrite lookup_insert_eq.
Qed.

(** The slot an event goes to, and the two sub-conditions of the
    transaction. *)
Definition slot (options : DDBStackOptions) (ev : ESEvent) : Events.key :=
  (namespace options, ev_id ev).

Definition slot_free (options : DDBStackOptions) (ev : ESEvent)
    (db : Events.table) : Prop :=
  db !! slot options ev = None.

Definition predecessor_stored (options : DDBStackOptions) (ev : ESEvent)
    (db : Events.table) : Prop :=
  is_Some (db !! (namespace options, ev_id ev - 1)).

#[global] Instance slot_free_dec options ev db :
  Decision (slot_free options ev db).
Proof. unfold slot_free. apply _. Defined.

#[global] Instance predecessor_stored_dec options ev db :
  Decision (predecessor_stored options ev db).
Proof. unfold predecessor_stored. apply _. Defined.

(** The reasons the store gives for the transaction of [commitEvent]. *)
Definition commit_reasons (options : DDBStackOptions) (ev : ESEvent)
    (db : Events.table) : list Events.reason :=
  (if decide (slot_free options ev db)
   then Events.None_ else Events.ConditionalCheckFailed)
  :: (if negb (ev_id ev =? 0)
      then [if decide (predecessor_stored options ev db)
            then Events.None_ else Events.ConditionalCheckFailed]
      else []).

Lemma reasons_transactItems options ev db :
  Events.reason_of db <$> transactItems options ev
  = commit_reasons options ev db.
Proof.
  unfold transactItems, commit_reasons.
  rewrite fmap_app, fmap_cons, fmap_nil. cbn [app]. f_equal.
  - unfold Events.reason_of. cbn [Events.target Events.condition].
    rewrite key_of_event_item, not_exists_spec. unfold slot_free, slot.
    by destruct (decide _); case_bool_decide.
  - destruct (negb _); [|done]. rewrite fmap_cons, fmap_nil. f_equal.
    unfold Events.reason_of. cbn [Events.target Events.condition].
    rewrite exists_spec. unfold predecessor_stored.
    by destruct (decide _); case_bool_decide.
Qed.

Lemma targets_transactItems options ev :
  Forall (λ it, is_Some (Events.target it)) (transactItems options ev).
Proof.
  unfold transactItems. apply Forall_app. split.
  - repeat constructor. simpl. rewrite key_of_event_item. eauto.
  - destruct (negb _); repeat constructor. simpl. eauto.
Qed.

Lemma apply_transactItems options ev db :
  foldl Events.apply_item db (transactItems options ev)
  = <[slot options ev := event_item options ev]> db.
Proof.
  unfold transactItems. rewrite foldl_app. simpl.
  rewrite key_of_event_item. by destruct (negb _).
Qed.

(** [commitEvent] for an id that is not negative, as one step on the
    table. *)
Lemma commitEvent_unfold options ev db :
  0 ≤ ev_id ev →
  commitEvent options ev db =
    if bool_decide (Forall (λ r, r = Events.None_) (commit_reasons options ev db))
    then (Returned tt, <[slot options ev := event_item options ev]> db)
    else (Thrown (Events.TransactionCanceledException
                    (commit_reasons options ev db)), db).
Proof.
  intros Hid. unfold commitEvent.
  destruct (Z.ltb_spec (ev_id ev) 0) as [?|_]; [lia|].
  unfold Events.transactWrite.
  rewrite bool_decide_eq_true_2 by apply targets_transactItems.
  rewrite reasons_transactItems, apply_transactItems.
  by destruct (bool_decide _).
Qed.

Lemma commit_reasons_ok options ev db :
  Forall (λ r, r = Events.None_) (commit_reasons options ev db)
  ↔ slot_free options ev db
    ∧ (ev_id ev = 0 ∨ predecessor_stored options ev db).
Proof.
  unfold commit_reasons.
  destruct (Z.eqb_spec (ev_id ev) 0) as [Hz|Hz]; simpl.
  - rewrite Forall_singleton. destruct (decide _); intuition congruence.
  - rewrite Forall_cons, Forall_singleton.
    destruct (decide (slot_free _ _ _)), (decide (predecessor_stored _ _ _));
      intuition congruence.
Qed.

Lemma item_at_event_item options ev :
  Events.item_at (slot options ev) (event_item options ev)
  = event_item options ev.
Proof.
  unfold Events.item_at, event_item, ESEvent_obj, slot. cbn [fst snd].
  apply map_eq. intros a. rewrite !lookup_insert.
  repeat case_decide; congruence.
Qed.

(** ** Queries *)

#[local] Instance Zge_transitive : Transitive Z.ge.
Proof. intros x y z. lia. Qed.

#[local] Instance Zge_total : Total Z.ge.
Proof. intros x y. lia. Qed.

Section partition.
Context (db : Events.table) (ns : string).

Lemma elem_of_partition_ids i :
  i ∈ partition_ids db ns ↔ is_Some (db !! (ns, i)).
Proof.
  unfold partition_ids. rewrite list_elem_of_fmap. split.
  - intros ([ns' i'] & -> & [Hns Hin]%list_elem_of_filter).
    cbn in Hns. subst ns'.
    apply list_elem_of_fmap in Hin as ([k o] & Hk & Hin).
    cbn in Hk. subst k. apply elem_of_map_to_list in Hin. eauto.
  - intros [o Ho]. exists (ns, i). split; [done|].
    apply list_elem_of_filter. split; [done|].
    apply list_elem_of_fmap. exists ((ns, i), o). split; [done|].
    by apply elem_of_map_to_list.
Qed.

Lemma NoDup_partition_ids : NoDup (partition_ids db ns).
Proof.
  unfold partition_ids. apply NoDup_fmap_2_strong.
  - intros [n1 i1] [n2 i2] [H1 _]%list_elem_of_filter
           [H2 _]%list_elem_of_filter Heq.
    cbn in *. congruence.
  - apply NoDup_filter, NoDup_fst_map_to_list.
Qed.

(** Reading the items of a page of stored ids gives them back, in the
    same order, each under its id. *)
Lemma ids_of_page (l : list Z) :
  (∀ i, i ∈ l → is_Some (db !! (ns, i))) →
  ids_of (omap (λ i, Events.get db (ns, i)) l) = l.
Proof.
  induction l as [|i l IH]; intros Hl; [done|].
  destruct (Hl i) as [o Ho]; [by left|].
  assert (Hget : Events.get db (ns, i) = Some (Events.item_at (ns, i) o))
    by (unfold Events.get; by rewrite Ho).
  unfold ids_of in *. cbn [omap list_omap]. rewrite Hget.
  cbn [omap list_omap]. rewrite item_at_id. cbn [snd]. f_equal.
  apply IH. intros j Hj. apply Hl. by right.
Qed.

Lemma page_items (l : list Z) :
  (∀ i, i ∈ l → is_Some (db !! (ns, i))) →
  Forall2 (λ i e, Events.get db (ns, i) = Some e)
          l (omap (λ i, Events.get db (ns, i)) l).
Proof.
  induction l as [|i l IH]; intros Hl; [constructor|].
  destruct (Hl i) as [o Ho]; [by left|].
  assert (Hget : Events.get db (ns, i) = Some (Events.item_at (ns, i) o))
    by (unfold Events.get; by rewrite Ho).
  cbn [omap list_omap]. rewrite Hget. constructor; [done|].
  apply IH. intros j Hj. apply Hl. by right.
Qed.
End partition.

Lemma StronglySorted_seqZ (n : nat) (a : Z) :
  StronglySorted Z.le (seqZ a (Z.of_nat n)).
Proof.
  revert a. induction n as [|n IH]; intros a.
  - constructor.
  - rewrite seqZ_cons by lia. constructor.
    + replace (Z.pred (Z.of_nat (S n))) with (Z.of_nat n) by lia. apply IH.
    + apply Forall_seqZ. intros j Hj. lia.
Qed.

(** A list without repetition that holds exactly the integers of an
    interval sorts to that interval. *)
Lemma merge_sort_interval (l : list Z) (a : Z) (n : nat) :
  NoDup l → (∀ i, i ∈ l ↔ a ≤ i < a + Z.of_nat n) →
  merge_sort Z.le l = seqZ a (Z.of_nat n).
Proof.
  intros Hnd Hl. apply (StronglySorted_unique Z.le).
  - apply StronglySorted_merge_sort; apply _.
  - apply StronglySorted_seqZ.
  - rewrite merge_sort_Permutation. apply NoDup_Permutation; [done|apply NoDup_seqZ|].
    intros i. rewrite Hl, elem_of_seqZ. lia.
Qed.

(** The first item of a descending sort is the greatest. *)
Lemma head_merge_sort_ge (l : list Z) (m : Z) :
  head (merge_sort Z.ge l) = Some m ↔ m ∈ l ∧ ∀ i, i ∈ l → i ≤ m.
Proof.
  pose proof (StronglySorted_merge_sort Z.ge l) as Hs.
  pose proof (merge_sort_Permutation Z.ge l) as Hp.
  destruct (merge_sort Z.ge l) as [|x k]; cbn.
  - apply Permutation_nil_l in Hp. subst l. split; [done|].
    by intros [?%elem_of_nil _].
  - apply StronglySorted_inv in Hs as [_ Hx].
    rewrite Forall_forall in Hx.
    assert (Hin : ∀ i, i ∈ l → i ≤ x).
    { intros i Hi. rewrite <- Hp in Hi.
      apply elem_of_cons in Hi as [->|Hi]; [lia|]. specialize (Hx i Hi). lia. }
    assert (x ∈ l) by (rewrite <- Hp; by left).
    split.
    + intros [= <-]. done.
    + intros [Hm Hmax]. f_equal. specialize (Hin m Hm).
      specialize (Hmax x ltac:(done)). lia.
Qed.

Lemma head_merge_sort_ge_None (l : list Z) :
  head (merge_sort Z.ge l) = None ↔ l = [].
Proof.
  pose proof (merge_sort_Permutation Z.ge l) as Hp.
  destruct (merge_sort Z.ge l) as [|x k]; cbn.
  - apply Permutation_nil_l in Hp. by subst l.
  - split; [done|]. intros ->. by apply Permutation_nil_r in Hp.
Qed.

(** *** What [slice] returns *)

Lemma StronglySorted_le_lt (l : list Z) :
  NoDup l → StronglySorted Z.le l → StronglySorted Z.lt l.
Proof.
  induction 2 as [|x l Hs IH Hx]; [constructor|].
  apply NoDup_cons in H as [Hnin Hnd]. constructor; [by apply IH|].
  rewrite Forall_forall in *. intros y Hy.
  specialize (Hx y Hy). assert (x ≠ y) by (intros ->; done). lia.
Qed.

Section slice_facts.
Context (options : DDBStackOptions) (start : Z) (end_ : option Z).
Context (db : Events.table).

Lemma ids_of_slice :
  ids_of (slice options start end_ db)
  = merge_sort Z.le (filter (λ i, in_range (Some start) i = true)
                            (partition_ids db (namespace options))).
Proof.
  unfold slice, query. cbn [Query.namespace Query.start Query.Limit
                             Query.ScanIndexForward].
  apply ids_of_page. intros i.
  rewrite merge_sort_Permutation, list_elem_of_filter, elem_of_partition_ids.
  by intros [_ ?].
Qed.

(** The ids returned are the stored ids from [start] on ... *)
Lemma elem_of_slice_ids i :
  i ∈ ids_of (slice options start end_ db)
  ↔ is_Some (db !! (namespace options, i)) ∧ start ≤ i.
Proof.
  rewrite ids_of_slice, merge_sort_Permutation, list_elem_of_filter.
  rewrite elem_of_partition_ids. cbn. rewrite Z.leb_le. tauto.
Qed.

(** ... in strictly ascending order ... *)
Lemma slice_ascending :
  StronglySorted Z.lt (ids_of (slice options start end_ db)).
Proof.
  rewrite ids_of_slice. apply StronglySorted_le_lt.
  - rewrite merge_sort_Permutation.
    apply NoDup_filter, NoDup_partition_ids.
  - apply StronglySorted_merge_sort; apply _.
Qed.

(** ... and each item is the one [getEvent] reads at its id. *)
Lemma slice_items :
  Forall2 (λ i e, getEvent options i db = Some e)
          (ids_of (slice options start end_ db))
          (slice options start end_ db).
Proof.
  rewrite ids_of_slice. unfold slice, query, getEvent.
  cbn [Query.namespace Query.start Query.Limit Query.ScanIndexForward].
  apply page_items. intros i.
  rewrite merge_sort_Permutation, list_elem_of_filter, elem_of_partition_ids.
  by intros [_ ?].
Qed.

(** The upper bound plays no part. *)
Lemma slice_end_unused : slice options start end_ db = slice options start None db.
Proof. reflexivity. Qed.
End slice_facts.

(** *** The tail query of [commitAnonymousEvent] *)

Section tail_facts.
Context (options : DDBStackOptions) (db : Events.table).

Let unbounded : list Z :=
  filter (λ i, in_range None i = true) (partition_ids db (namespace options)).

Lemma elem_of_unbounded i :
  i ∈ unbounded ↔ is_Some (db !! (namespace options, i)).
Proof.
  unfold unbounded. rewrite list_elem_of_filter, elem_of_partition_ids.
  cbn. tauto.
Qed.

Lemma tail_query_unfold :
  query (tail_query options) db
  = omap (λ i, Events.get db (namespace options, i))
         (take 1 (merge_sort Z.ge unbounded)).
Proof. reflexivity. Qed.

Lemma tail_query_empty :
  (∀ i, db !! (namespace options, i) = None) →
  query (tail_query options) db = [].
Proof.
  intros Hempty. rewrite tail_query_unfold.
  assert (unbounded = []) as Hu.
  { apply elem_of_nil_inv. intros i [o Ho]%elem_of_unbounded.
    by rewrite Hempty in Ho. }
  rewrite <- head_merge_sort_ge_None in Hu.
  by destruct (merge_sort Z.ge unbounded).
Qed.

Lemma tail_query_highest m :
  is_Some (db !! (namespace options, m)) →
  (∀ i, is_Some (db !! (namespace options, i)) → i ≤ m) →
  ∃ e, getEvent options m db = Some e
       ∧ get_num e "id" = Some m
       ∧ query (tail_query options) db = [e].
Proof.
  intros [o Ho] Hmax. rewrite tail_query_unfold.
  assert (head (merge_sort Z.ge unbounded) = Some m) as Hh.
  { apply head_merge_sort_ge. split.
    - apply elem_of_unbounded. eauto.
    - intros i Hi%elem_of_unbounded. by apply Hmax. }
  destruct (merge_sort Z.ge unbounded) as [|x k]; [done|].
  injection Hh as ->. cbn [take omap list_omap].
  unfold getEvent, Events.get. rewrite Ho. cbn.
  eexists. split; [done|]. split; [|done].
  apply (item_at_id (namespace options, m)).
Qed.

Lemma nextEventId_empty :
  (∀ i, db !! (namespace options, i) = None) → nextEventId options db = 0.
Proof. intros H. unfold nextEventId. by rewrite tail_query_empty. Qed.

Lemma nextEventId_highest m :
  is_Some (db !! (namespace options, m)) →
  (∀ i, is_Some (db !! (namespace options, i)) → i ≤ m) →
  nextEventId options db = m + 1.
Proof.
  intros Hm Hmax. unfold nextEventId.
  destruct (tail_query_highest m Hm Hmax) as (e & _ & He & ->).
  cbn. by rewrite He.
Qed.
End tail_facts.

(** ** Examples used below *)

Definition cart := {| tablename := "events"; namespace := "cart|42" |}.

Definition added (i : Z) : ESEvent :=
  {| ev_id := i; ev_fields := {[ "type" := VStr "added" ]} |}.

(** The table after the given ids were committed one after the other. *)
Definition committed (ids : list Z) : Events.table :=
  foldl (λ db i, (commitEvent cart (added i) db).2) ∅ ids.

(** ** commitEvent *)

Lemma commitEvent_negative_id' options ev db :
  ev_id ev < 0 → commitEvent options ev db = (Returned tt, db).
Proof.
  intros Hneg. unfold commitEvent.
  by destruct (Z.ltb_spec (ev_id ev) 0) as [_|?]; [|lia].
Qed.

(** C9. For every event whose id is negative, [commitEvent] returns without
    a store operation: the outcome is a plain return and the table is the
    one it was given. *)
Theorem commitEvent_negative_id options ev db :
  ev_id ev < 0 → commitEvent options ev db = (Returned tt, db).
Proof. apply commitEvent_negative_id'. Qed.

Lemma commitEvent_negative_id_witness :
  commitEvent cart (added (-3)) (committed [0; 1])
  = (Returned tt, committed [0; 1]).
Proof. apply commitEvent_negative_id. simpl. lia. Defined.




(** A stream is empty or has an item of highest id: the two cases below
    are all there is. *)
Lemma stream_empty_or_highest (options : DDBStackOptions) (db : Events.table) :
  (∀ i, db !! (namespace options, i) = None)
  ∨ ∃ m, is_Some (db !! (namespace options, m))
         ∧ ∀ i, is_Some (db !! (namespace options, i)) → i ≤ m.
Proof.
  destruct (head (merge_sort Z.ge (partition_ids db (namespace options))))
    as [m|] eqn:Hhead.
  - right. exists m. apply head_merge_sort_ge in Hhead as [Hin Hmax].
    split; [by apply elem_of_partition_ids|].
    intros i Hi. by apply Hmax, elem_of_partition_ids.
  - left. apply head_merge_sort_ge_None in Hhead. intros i.
    apply eq_None_not_Some. intros Hi%elem_of_partition_ids.
    rewrite Hhead in Hi. by apply elem_of_nil in Hi.
Qed.



(** ** The stream of a namespace *)

(** The ids stored under [ns] are exactly the first [n] naturals. *)
Definition gap_free (db : Events.table) (ns : string) (n : nat) : Prop :=
  ∀ i, is_Some (db !! (ns, i)) ↔ 0 ≤ i < Z.of_nat n.

(** The ids stored under [ns], in ascending order. *)
Definition stream_ids (db : Events.table) (ns : string) : list Z :=
  merge_sort Z.le (partition_ids db ns).

Lemma gap_free_empty ns : gap_free ∅ ns 0.
Proof. intros i. rewrite lookup_empty. split; [by intros [? ?]|lia]. Qed.

Lemma commitEvent_gap_free options ev db ns n :
  gap_free db ns n → ∃ n', gap_free (commitEvent options ev db).2 ns n'.
Proof.
  intros Hgap. destruct (decide (ev_id ev < 0)) as [Hneg|Hpos].
  { rewrite commitEvent_negative_id' by done. eauto. }
  rewrite commitEvent_unfold by lia. case_bool_decide as Hok; [|eauto].
  apply commit_reasons_ok in Hok as [Hfree Hpred]. cbn [snd].
  unfold slot_free, predecessor_stored, slot in *.
  destruct (decide (namespace options = ns)) as [Hns|Hns].
  - rewrite Hns in *. exists (S n). intros i.
    assert (ev_id ev = Z.of_nat n) as Hn.
    { assert (¬ (0 ≤ ev_id ev < Z.of_nat n)) as Hout.
      { intros Hin. apply Hgap in Hin. rewrite Hfree in Hin.
        by destruct Hin. }
      destruct Hpred as [Hz|Hp]; [lia|]. apply Hgap in Hp. lia. }
    destruct (decide (i = ev_id ev)) as [->|Hi].
    + rewrite lookup_insert_eq. split; [lia|eauto].
    + rewrite lookup_insert_ne by congruence.
      etrans; [apply Hgap|lia].
  - exists n. intros i. rewrite lookup_insert_ne by congruence. apply Hgap.
Qed.

(** *** Calls that interleave *)

(** A call of [commitEvent] is one request to the store.  A call of
    [commitAnonymousEvent] is two, the tail query and then the transaction,
    and the calls of other callers may run between the two. *)
Inductive step :=
  | Commit (options : DDBStackOptions) (ev : ESEvent)
  | Anonymous (options : DDBStackOptions) (ev : ESEvent)
  | AnonymousQuery (options : DDBStackOptions) (ev : ESEvent)
  | AnonymousCommit (n : nat).

(** The table, and the calls of [commitAnonymousEvent] that have their id
    and have not committed yet. *)
Record system := {
  table : Events.table;
  awaiting : list (DDBStackOptions * ESEvent) }.

Definition perform (s : system) (st : step) : system :=
  match st with
  | Commit options ev =>
      {| table := (commitEvent options ev (table s)).2;
         awaiting := awaiting s |}
  | Anonymous options ev =>
      {| table := (commitAnonymousEvent options ev (table s)).2;
         awaiting := awaiting s |}
  | AnonymousQuery options ev =>
      {| table := table s;
         awaiting := awaiting s
                     ++ [(options, with_id ev (nextEventId options (table s)))] |}
  | AnonymousCommit n =>
      match awaiting s !! n with
      | Some (options, ev) =>
          {| table := (commitEvent options ev (table s)).2;
             awaiting := delete n (awaiting s) |}
      | None => s
      end
  end.

Definition run (schedule : list step) : system :=
  foldl perform {| table := ∅; awaiting := [] |} schedule.

Lemma perform_gap_free s st ns n :
  gap_free (table s) ns n → ∃ n', gap_free (table (perform s st)) ns n'.
Proof.
  intros Hgap. destruct st as [options ev|options ev|options ev|k]; cbn.
  - by eapply commitEvent_gap_free.
  - by eapply commitEvent_gap_free.
  - eauto.
  - destruct (awaiting s !! k) as [[options ev]|]; cbn; [|eauto].
    by eapply commitEvent_gap_free.
Qed.

Lemma run_gap_free schedule ns : ∃ n, gap_free (table (run schedule)) ns n.
Proof.
  unfold run. induction schedule as [|st schedule IH] using rev_ind.
  - exists 0%nat. apply gap_free_empty.
  - rewrite foldl_app. cbn. destruct IH as [n Hn].
    by eapply perform_gap_free.
Qed.

(** What a reader sees of a gap-free stream. *)
Lemma gap_free_readers db options n :
  gap_free db (namespace options) n →
  stream_ids db (namespace options) = seqZ 0 (Z.of_nat n)
  ∧ (∀ end_, ids_of (slice options 0 end_ db) = seqZ 0 (Z.of_nat n))
  ∧ (∀ i, is_Some (getEvent options i db) ↔ 0 ≤ i < Z.of_nat n)
  ∧ (∀ i e, getEvent options i db = Some e → get_num e "id" = Some i).
Proof.
  intros Hgap. split; [|split; [|split]].
  - apply merge_sort_interval; [apply NoDup_partition_ids|].
    intros i. rewrite elem_of_partition_ids. apply Hgap.
  - intros end_. rewrite ids_of_slice. apply merge_sort_interval.
    + apply NoDup_filter, NoDup_partition_ids.
    + intros i. rewrite list_elem_of_filter, elem_of_partition_ids.
      cbn. rewrite Z.leb_le. specialize (Hgap i). tauto.
  - intros i. unfold getEvent. rewrite get_is_Some. apply Hgap.
  - unfold getEvent, Events.get. intros i e.
    destruct (db !! (namespace options, i)) as [o|]; [|done].
    intros [= <-]. apply (item_at_id (namespace options, i)).
Qed.

(** C1. Start from the empty table and let calls of [commitEvent] and
    [commitAnonymousEvent], on any namespaces and with any events, run in
    any order, the two requests of a [commitAnonymousEvent] apart if other
    calls come between.  Then for every namespace the stored ids are exactly
    0, 1, ..., n - 1 for some n (none when n = 0): no gap, and no duplicate
    since the table holds one item per id.  [slice] from 0 returns the items
    of exactly these ids in strictly increasing order, and [getEvent] finds
    an item at exactly these ids, each carrying its id. *)
Theorem stream_ids_gap_free (schedule : list step) (options : DDBStackOptions) :
  let db := table (run schedule) in
  ∃ n : nat,
    gap_free db (namespace options) n
    ∧ NoDup (partition_ids db (namespace options))
    ∧ stream_ids db (namespace options) = seqZ 0 (Z.of_nat n)
    ∧ (∀ end_, ids_of (slice options 0 end_ db) = seqZ 0 (Z.of_nat n))
    ∧ (∀ end_, StronglySorted Z.lt (ids_of (slice options 0 end_ db)))
    ∧ (∀ i, is_Some (getEvent options i db) ↔ 0 ≤ i < Z.of_nat n)
    ∧ (∀ i e, getEvent options i db = Some e → get_num e "id" = Some i).
Proof.
  intros db. destruct (run_gap_free schedule (namespace options)) as [n Hn].
  exists n. destruct (gap_free_readers _ _ _ Hn) as (? & ? & ? & ?).
  split; [done|]. split; [apply NoDup_partition_ids|].
  split; [done|]. split; [done|].
  split; [intros end_; apply slice_ascending|done].
Qed.

Lemma stream_ids_gap_free_witness :
  ∃ n : nat,
    ids_of (slice cart 0 None
              (table (run [AnonymousQuery cart (added 7); Commit cart (added 0);
                           AnonymousQuery cart (added 7); AnonymousCommit 0;
                           Commit cart (added 5); AnonymousCommit 0])))
    = seqZ 0 (Z.of_nat n).
Proof.
  destruct (stream_ids_gap_free
              [AnonymousQuery cart (added 7); Commit cart (added 0);
               AnonymousQuery cart (added 7); AnonymousCommit 0;
               Commit cart (added 5); AnonymousCommit 0] cart)
    as (n & _ & _ & _ & Hslice & _).
  exists n. apply Hslice.
Defined.

(** Two callers of [commitAnonymousEvent] that both query an empty stream
    get the same id; the first to commit wins and the stream holds id 0
    once. *)
Example racing_anonymous_commits :
  stream_ids (table (run [AnonymousQuery cart (added 7);
                          AnonymousQuery cart (added 8);
                          AnonymousCommit 0; AnonymousCommit 0]))
             (namespace cart) = [0].
Proof. by vm_compute. Qed.

(** An item, once stored, stays as it is. *)
Lemma commitEvent_keeps_items options ev db k o :
  db !! k = Some o → (commitEvent options ev db).2 !! k = Some o.
Proof.
  intros Hk. destruct (decide (ev_id ev < 0)) as [Hneg|Hpos].
  { by rewrite commitEvent_negative_id'. }
  rewrite commitEvent_unfold by lia. case_bool_decide as Hok; [|done].
  apply commit_reasons_ok in Hok as [Hfree _]. cbn [snd].
  rewrite lookup_insert_ne; [done|]. intros <-.
  unfold slot_free in Hfree. congruence.
Qed.

(** ** slice *)

(** C4. On the stream with ids 0 to 5, [slice] from 2 with the upper bound
    4 returns the items of ids 2, 3, 4, 5: the bound is not applied, and
    the result is the one of [slice] from 2 with no bound. *)
Theorem slice_upper_bound_not_applied :
  ids_of (slice cart 2 (Some 4) (committed [0; 1; 2; 3; 4; 5])) = [2; 3; 4; 5]
  ∧ ids_of (slice cart 2 None (committed [0; 1; 2; 3; 4; 5])) = [2; 3; 4; 5].
Proof. split; by vm_compute. Qed.

(** ** The conflicts of commitEvent *)

(** For an id above 0 each test of the [catch] block tells one
    sub-condition: the first that the slot was taken, the second that the
    predecessor was missing. *)
Lemma conflict_tests_exact options ev db ex db' :
  0 < ev_id ev →
  commitEvent options ev db = (Thrown ex, db') →
  (already_exists ex = true ↔ ¬ slot_free options ev db)
  ∧ (too_far_ahead ex = true ↔ ¬ predecessor_stored options ev db).
Proof.
  intros Hid. rewrite commitEvent_unfold by lia.
  case_bool_decide as Hok; [done|]. intros [= <- <-]. revert Hok.
  unfold commit_reasons. destruct (Z.eqb_spec (ev_id ev) 0) as [?|_]; [lia|].
  cbn [negb].
  destruct (decide (slot_free _ _ _)), (decide (predecessor_stored _ _ _));
    intros Hok; vm_compute already_exists; vm_compute too_far_ahead;
    by intuition.
Qed.

(** On a gap-free stream a failed commit of an id above 0 passes exactly
    one of the two tests. *)
Lemma conflict_tests_disjoint options ev db ex db' n :
  gap_free db (namespace options) n →
  0 < ev_id ev →
  commitEvent options ev db = (Thrown ex, db') →
  already_exists ex = negb (too_far_ahead ex).
Proof.
  intros Hgap Hid Hthrown.
  destruct (conflict_tests_exact _ _ _ _ _ Hid Hthrown) as [Hdup Hmiss].
  rewrite commitEvent_unfold in Hthrown by lia.
  case_bool_decide as Hok; [done|]. rewrite commit_reasons_ok in Hok.
  unfold slot_free, predecessor_stored, slot in *.
  pose proof (Hgap (ev_id ev)) as Hhere.
  pose proof (Hgap (ev_id ev - 1)) as Hpred.
  destruct (already_exists ex), (too_far_ahead ex); cbn; try done.
  - destruct Hdup as [Hdup _], Hmiss as [Hmiss _].
    specialize (Hdup eq_refl). specialize (Hmiss eq_refl).
    apply not_eq_None_Some in Hdup. apply Hhere in Hdup.
    destruct Hmiss. apply Hpred. lia.
  - destruct Hok. split.
    + destruct (db !! (namespace options, ev_id ev)) eqn:E; [|done].
      destruct Hdup as [_ Hdup]. by discriminate Hdup.
    + right. destruct (decide (is_Some (db !! (namespace options, ev_id ev - 1))))
        as [?|Hn]; [done|].
      destruct Hmiss as [_ Hmiss]. by discriminate Hmiss.
Qed.

(** A commit of id 5 on a stream whose tail is id 3 passes the second test
    alone, and a second commit of id 3 the first alone. *)
Example leap_ahead_and_duplicate :
  (∃ ex, commitEvent cart (added 5) (committed [0; 1; 2; 3])
         = (Thrown ex, committed [0; 1; 2; 3])
         ∧ already_exists ex = false ∧ too_far_ahead ex = true)
  ∧ (∃ ex, commitEvent cart (added 3) (committed [0; 1; 2; 3])
           = (Thrown ex, committed [0; 1; 2; 3])
           ∧ already_exists ex = true ∧ too_far_ahead ex = false).
Proof.
  split.
  - exists (Events.TransactionCanceledException
              [Events.None_; Events.ConditionalCheckFailed]).
    apply (bool_decide_unpack _). by vm_compute.
  - exists (Events.TransactionCanceledException
              [Events.ConditionalCheckFailed; Events.None_]).
    apply (bool_decide_unpack _). by vm_compute.
Qed.

(** The two tests guard the two lines the [catch] block logs, and nothing
    else.  On a second commit of id 0 the transaction has the put alone,
    the one reason is the first and the last of the list, and both lines
    are logged; the exception thrown is the store's, as for any id. *)
Example duplicate_of_id_0_passes_both_tests :
  ∃ ex, commitEvent cart (added 0) (committed [0]) = (Thrown ex, committed [0])
        ∧ ex = Events.TransactionCanceledException [Events.ConditionalCheckFailed]
        ∧ already_exists ex = true
        ∧ too_far_ahead ex = true.
Proof.
  exists (Events.TransactionCanceledException [Events.ConditionalCheckFailed]).
  apply (bool_decide_unpack _). by vm_compute.
Qed.

(** Why the transaction of a commit was cancelled, on a stream without
    gaps: the slot is taken and the exception has the reason of the put, or
    the slot is free, the id above 0, the predecessor missing and the
    exception has the reason of the check. *)
Lemma cancelled_commit_reasons options ev db n :
  gap_free db (namespace options) n →
  0 ≤ ev_id ev →
  ¬ Forall (λ r, r = Events.None_) (commit_reasons options ev db) →
  (is_Some (db !! (namespace options, ev_id ev))
   ∧ (ev_id ev = 0 ∨ is_Some (db !! (namespace options, ev_id ev - 1)))
   ∧ commit_reasons options ev db
     = Events.ConditionalCheckFailed
       :: (if decide (ev_id ev = 0) then [] else [Events.None_]))
  ∨ (db !! (namespace options, ev_id ev) = None
     ∧ 0 < ev_id ev
     ∧ db !! (namespace options, ev_id ev - 1) = None
     ∧ commit_reasons options ev db
       = [Events.None_; Events.ConditionalCheckFailed]).
Proof.
  intros Hgap Hid Hfail. rewrite commit_reasons_ok in Hfail.
  revert Hfail. unfold commit_reasons, slot_free, predecessor_stored, slot.
  pose proof (Hgap (ev_id ev)) as Hhere.
  pose proof (Hgap (ev_id ev - 1)) as Hpred.
  destruct (decide (db !! (namespace options, ev_id ev) = None)) as [Hfree|Htaken].
  - intros Hfail. right.
    assert (ev_id ev ≠ 0) as Hnz by (intros Hz; apply Hfail; auto).
    assert (db !! (namespace options, ev_id ev - 1) = None) as Hmissing.
    { apply eq_None_not_Some. intros Hsome. apply Hfail. auto. }
    destruct (Z.eqb_spec (ev_id ev) 0) as [?|_]; [done|]. cbn [negb].
    rewrite decide_False by (rewrite Hmissing; by intros [? ?]).
    repeat split; [done|lia|done].
  - intros _. left. apply not_eq_None_Some in Htaken.
    assert (0 ≤ ev_id ev < Z.of_nat n) as Hin by by apply Hhere.
    destruct (Z.eqb_spec (ev_id ev) 0) as [Hz|Hnz]; cbn [negb].
    + rewrite decide_True by done. split; [done|]. split; [by left|done].
    + assert (is_Some (db !! (namespace options, ev_id ev - 1))) as Hstored
        by (apply Hpred; lia).
      rewrite decide_True by done. rewrite decide_False by done.
      split; [done|]. split; [by right|done].
Qed.

(** C3. A commit that fails for a conflict, on any table the calls of the
    stack have made, leaves the table as it is and throws the store's
    exception, whose list of reasons is of one of two kinds that exclude
    each other.  Either an item is already stored at (namespace, id): the
    reason of the put is [ConditionalCheckFailed] and the exception passes
    the test for "[ConditionalCheckFailed".  Or none is stored there and
    none at (namespace, id - 1): the reason of the put is [None], that of
    the check is [ConditionalCheckFailed], and the exception does not pass
    that test.  So the caller tells the two apart by the exception. *)
Theorem conflict_is_told_by_the_exception
    (schedule : list step) (options : DDBStackOptions) (ev : ESEvent)
    (ex : Exception) (db' : Events.table) :
  let db := table (run schedule) in
  commitEvent options ev db = (Thrown ex, db') →
  db' = db
  ∧ ((is_Some (db !! (namespace options, ev_id ev))
      ∧ (ev_id ev = 0 ∨ is_Some (db !! (namespace options, ev_id ev - 1)))
      ∧ ex = Events.TransactionCanceledException
               (Events.ConditionalCheckFailed
                :: (if decide (ev_id ev = 0) then [] else [Events.None_]))
      ∧ already_exists ex = true)
     ∨ (db !! (namespace options, ev_id ev) = None
        ∧ 0 < ev_id ev
        ∧ db !! (namespace options, ev_id ev - 1) = None
        ∧ ex = Events.TransactionCanceledException
                 [Events.None_; Events.ConditionalCheckFailed]
        ∧ already_exists ex = false)).
Proof.
  intros db Hthrown.
  destruct (decide (ev_id ev < 0)) as [Hneg|Hpos].
  { by rewrite commitEvent_negative_id' in Hthrown. }
  rewrite commitEvent_unfold in Hthrown by lia.
  case_bool_decide as Hok; [done|]. injection Hthrown as <- <-.
  split; [done|].
  destruct (run_gap_free schedule (namespace options)) as [n Hgap].
  destruct (cancelled_commit_reasons options ev db n Hgap ltac:(lia) Hok)
    as [(Htaken & Hpred & ->)|(Hfree & Hid & Hmissing & ->)].
  - left. split; [done|]. split; [done|]. split; [done|].
    by destruct (decide (ev_id ev = 0)); vm_compute.
  - right. split; [done|]. split; [done|]. split; [done|]. split; [done|].
    by vm_compute.
Qed.

Lemma conflict_is_told_by_the_exception_witness :
  (is_Some (table (run [Commit cart (added 0)]) !! (namespace cart, ev_id (added 0)))
   ∧ already_exists
       (Events.TransactionCanceledException [Events.ConditionalCheckFailed])
     = true)
  ∧ (table (run [Commit cart (added 0)]) !! (namespace cart, ev_id (added 2)) = None
     ∧ already_exists
         (Events.TransactionCanceledException
            [Events.None_; Events.ConditionalCheckFailed])
       = false).
Proof.
  split.
  - destruct (conflict_is_told_by_the_exception
                [Commit cart (added 0)] cart (added 0)
                (Events.TransactionCanceledException [Events.ConditionalCheckFailed])
                (table (run [Commit cart (added 0)])))
      as (_ & [(Htaken & _ & _ & Htest)|(Hfree & _)]).
    + apply (bool_decide_unpack _). by vm_compute.
    + done.
    + exfalso. revert Hfree. apply (bool_decide_unpack _). by vm_compute.
  - destruct (conflict_is_told_by_the_exception
                [Commit cart (added 0)] cart (added 2)
                (Events.TransactionCanceledException
                   [Events.None_; Events.ConditionalCheckFailed])
                (table (run [Commit cart (added 0)])))
      as (_ & [(Htaken & _)|(Hfree & _ & _ & _ & Htest)]).
    + apply (bool_decide_unpack _). by vm_compute.
    + exfalso. revert Htaken. apply (bool_decide_unpack _). by vm_compute.
    + done.
Defined.

(** * The view cache ([ddbViewCache]) *)

Module Views.

(** The views table: partition key [namespace], sort key [viewName], both
    strings. *)
Abbreviation key := (string * string)%type.
Abbreviation table := (gmap (string * string) obj).

Definition key_of (item : obj) : option key :=
  match get_str item "namespace", get_str item "viewName" with
  | Some ns, Some v => Some (ns, v)
  | _, _ => None
  end.

(** An item read from the table carries its two key attributes. *)
Definition item_at (k : key) (o : obj) : obj :=
  <["namespace" := VStr k.1]> (<["viewName" := VStr k.2]> o).

Definition get (db : table) (k : key) : option obj :=
  item_at k <$> db !! k.

(** A conditional [put]: the condition is evaluated on the item stored
    under the key of the new item; if it holds the new item takes the place,
    and if not the store raises [failure] and changes nothing.  The
    exception a failed condition raises is left open here: the adapter
    looks at nothing but its message. *)
Definition put (failure : Exception) (Item : obj) (ConditionExpression : cond)
    (db : table) : outcome unit * table :=
  match key_of Item with
  | Some k =>
      if eval_cond ConditionExpression (get db k)
      then (Returned tt, <[k := Item]> db)
      else (Thrown failure, db)
  | None => (Thrown ValidationException, db)
  end.

End Views.

(** The document client, [DynamoDBDocument.from(new DynamoDBClient({ region }))]. *)
Record DynamoDBDocument := { region : string }.

Module ViewCache.

(** The options of a cache; the client is optional. *)
Record DDBViewCacheOptions := {
  ddb : option DynamoDBDocument;
  tablename : string;
  namespace : string }.

(** [ddbViewCache]: [options.ddb = options.ddb ?? sharedDBB], and the two
    operations below at these options.  [sharedDBB] is the client of the
    module, which is there once a [createStack] has run: a cache given no
    client and built before that has none, and keeps none. *)
Definition ddbViewCache (sharedDBB : option DynamoDBDocument)
    (options : DDBViewCacheOptions) : DDBViewCacheOptions :=
  {| ddb := match ddb options with
            | Some client => Some client
            | None => sharedDBB
            end;
     tablename := tablename options;
     namespace := namespace options |}.

(** A cache has a client when it is given one, or when the module has one
    at the time the cache is built. *)
Lemma ddbViewCache_client sharedDBB options :
  is_Some (ddb (ddbViewCache sharedDBB options))
  ↔ is_Some (ddb options) ∨ is_Some sharedDBB.
Proof.
  unfold ddbViewCache. cbn. destruct (ddb options) as [client|].
  - split; [by left|eauto].
  - split; [by right|]. by intros [[? ?]|?].
Qed.

(** A compiled view: the id of the last event it took in, and its other
    properties. *)
Record CompiledView := {
  eventId : Z;
  view_fields : obj }.

Definition CompiledView_obj (compiledView : CompiledView) : obj :=
  <["eventId" := VNum (eventId compiledView)]> (view_fields compiledView).

(** [{ namespace: options.namespace, viewName: identifier, ...compiledView }]:
    a property of the view replaces one of the same name written before
    the spread. *)
Definition cache_item (options : DDBViewCacheOptions) (identifier : string)
    (compiledView : CompiledView) : obj :=
  CompiledView_obj compiledView
  ∪ <["viewName" := VStr identifier]>
      (<["namespace" := VStr (namespace options)]> ∅).

(** ["attribute_not_exists(#ns) OR #evid < :evid"] *)
Definition cache_condition (compiledView : CompiledView) : cond :=
  cond_or (attribute_not_exists "namespace")
          (attribute_lt "eventId" (eventId compiledView)).

(** The test of the [catch] block of [updateCache]. *)
Definition is_conditional_failure (ex : Exception) : bool :=
  truthy (not_indexOf ex "ConditionalCheckFailed").

(** [getFromCache]: [options.ddb?.get(...)] and then [res?.Item].  Without
    a client nothing is asked and the result is [undefined]. *)
Definition getFromCache (options : DDBViewCacheOptions) (identifier : string)
    (db : Views.table) : option obj :=
  match ddb options with
  | Some _ => Views.get db (namespace options, identifier)
  | None => None
  end.

(** [updateCache]: [options.ddb?.put(...)] in a [try].  Without a client
    nothing is sent and the call returns. *)
Definition updateCache (failure : Exception) (options : DDBViewCacheOptions)
    (identifier : string) (compiledView : CompiledView) (db : Views.table)
  : outcome unit * Views.table :=
  match ddb options with
  | Some _ =>
      match Views.put failure (cache_item options identifier compiledView)
                      (cache_condition compiledView) db with
      | (Returned _, db') => (Returned tt, db')
      | (Thrown ex, db') =>
          if is_conditional_failure ex then (Returned tt, db')
          else (Thrown ex, db')
      end
  | None => (Returned tt, db)
  end.

(** The [eventId] of the entry stored under a key. *)
Definition stored_eventId (db : Views.table) (k : Views.key) : option Z :=
  Views.get db k ≫= λ o, get_num o "eventId".

(** A series of [updateCache] calls, by any caches of the table. *)
Definition call : Type := DDBViewCacheOptions * string * CompiledView.

Definition updates (failure : Exception) (calls : list call) (db : Views.table)
  : Views.table :=
  foldl (λ db c, (updateCache failure c.1.1 c.1.2 c.2 db).2) db calls.

(** *** The item that [updateCache] puts *)

Lemma cache_item_lookup options identifier compiledView a :
  cache_item options identifier compiledView !! a
  = if decide (a = "eventId") then Some (VNum (eventId compiledView))
    else match view_fields compiledView !! a with
         | Some v => Some v
         | None => if decide (a = "viewName") then Some (VStr identifier)
                   else if decide (a = "namespace")
                        then Some (VStr (namespace options))
                        else None
         end.
Proof.
  unfold cache_item, CompiledView_obj.
  rewrite lookup_union, !lookup_insert, lookup_empty.
  destruct (view_fields compiledView !! a);
    repeat case_decide; cbn; congruence.
Qed.

Lemma cache_item_eventId options identifier compiledView :
  get_num (cache_item options identifier compiledView) "eventId"
  = Some (eventId compiledView).
Proof. unfold get_num. by rewrite cache_item_lookup. Qed.

(** The key the item goes to when the view has no [namespace] and no
    [viewName] of its own. *)
Lemma key_of_cache_item options identifier compiledView :
  view_fields compiledView !! "namespace" = None →
  view_fields compiledView !! "viewName" = None →
  Views.key_of (cache_item options identifier compiledView)
  = Some (namespace options, identifier).
Proof.
  intros Hns Hvn. unfold Views.key_of, get_str.
  rewrite !cache_item_lookup, Hns, Hvn. by repeat case_decide.
Qed.

Lemma views_item_at_id (k : Views.key) (item : obj) :
  Views.key_of item = Some k → Views.item_at k item = item.
Proof.
  unfold Views.key_of, get_str, Views.item_at. intros Hk.
  destruct (item !! "namespace") as [[]|] eqn:Hns; try done.
  destruct (item !! "viewName") as [[]|] eqn:Hvn; try done.
  injection Hk as <-. cbn [fst snd].
  apply map_eq. intros a. rewrite !lookup_insert.
  repeat case_decide; congruence.
Qed.

Lemma views_item_at_eventId (k : Views.key) (o : obj) :
  get_num (Views.item_at k o) "eventId" = get_num o "eventId".
Proof.
  unfold get_num, Views.item_at. by rewrite !lookup_insert_ne by done.
Qed.

Lemma stored_eventId_lookup (db : Views.table) (k : Views.key) :
  stored_eventId db k = db !! k ≫= λ o, get_num o "eventId".
Proof.
  unfold stored_eventId, Views.get. destruct (db !! k) as [o|]; [|done].
  cbn. apply views_item_at_eventId.
Qed.

(** The condition of [updateCache] on the entry stored under a key: there
    is none, or its [eventId] is below the one of the view. *)
Definition may_replace (db : Views.table) (k : Views.key) (e : Z) : bool :=
  match db !! k with
  | Some o => match get_num o "eventId" with
              | Some e0 => e0 <? e
              | None => false
              end
  | None => true
  end.

Lemma cache_condition_spec compiledView db k :
  eval_cond (cache_condition compiledView) (Views.get db k)
  = may_replace db k (eventId compiledView).
Proof.
  unfold cache_condition, may_replace, Views.get.
  destruct (db !! k) as [o|]; [|done].
  cbn [fmap option_fmap option_map eval_cond].
  rewrite views_item_at_eventId.
  assert (Views.item_at k o !! "namespace" = Some (VStr k.1)) as ->
    by apply lookup_insert_eq.
  by case_bool_decide.
Qed.

(** [updateCache] as one step on the table. *)
Lemma updateCache_unfold failure options identifier compiledView db k :
  is_Some (ddb options) →
  Views.key_of (cache_item options identifier compiledView) = Some k →
  updateCache failure options identifier compiledView db =
    if may_replace db k (eventId compiledView)
    then (Returned tt, <[k := cache_item options identifier compiledView]> db)
    else if is_conditional_failure failure then (Returned tt, db)
         else (Thrown failure, db).
Proof.
  intros [client Hclient] Hk. unfold updateCache, Views.put.
  rewrite Hclient, Hk, cache_condition_spec. by destruct (may_replace _ _ _).
Qed.

Lemma updateCache_no_key failure options identifier compiledView db :
  is_Some (ddb options) →
  Views.key_of (cache_item options identifier compiledView) = None →
  updateCache failure options identifier compiledView db
  = (Thrown ValidationException, db).
Proof.
  intros [client Hclient] Hk. unfold updateCache, Views.put.
  by rewrite Hclient, Hk.
Qed.

Lemma updateCache_no_client failure options identifier compiledView db :
  ddb options = None →
  updateCache failure options identifier compiledView db = (Returned tt, db).
Proof. intros Hnone. unfold updateCache. by rewrite Hnone. Qed.

(** What a call leaves under a key: the new item if it is the key of the
    item and the condition holds there, the entry as it was otherwise. *)
Lemma updateCache_lookup failure options identifier compiledView db k :
  (updateCache failure options identifier compiledView db).2 !! k
  = if decide (is_Some (ddb options)
               ∧ Views.key_of (cache_item options identifier compiledView)
                 = Some k)
    then if may_replace db k (eventId compiledView)
         then Some (cache_item options identifier compiledView)
         else db !! k
    else db !! k.
Proof.
  destruct (ddb options) as [client|] eqn:Hclient.
  2:{ rewrite updateCache_no_client by done.
      rewrite decide_False; [done|]. by intros [[? ?] _]. }
  assert (is_Some (ddb options)) as Hsome by (rewrite Hclient; eauto).
  rewrite <- Hclient.
  destruct (Views.key_of (cache_item options identifier compiledView))
    as [k'|] eqn:Hk.
  - rewrite (updateCache_unfold _ _ _ _ _ k') by done.
    case_decide as Hkk.
    + destruct Hkk as [_ [= ->]]. destruct (may_replace _ _ _); cbn [snd].
      * by rewrite lookup_insert_eq.
      * by destruct (is_conditional_failure failure).
    + destruct (may_replace _ _ _); cbn [snd].
      * rewrite lookup_insert_ne; [done|]. intros ->. by apply Hkk.
      * by destruct (is_conditional_failure failure).
  - rewrite updateCache_no_key by done. rewrite decide_False; [done|].
    by intros [_ ?].
Qed.

Lemma updateCache_eventId_le failure options identifier compiledView db k e :
  stored_eventId db k = Some e →
  ∃ e', stored_eventId
          (updateCache failure options identifier compiledView db).2 k = Some e'
        ∧ e ≤ e'.
Proof.
  rewrite !stored_eventId_lookup, updateCache_lookup. intros He.
  case_decide as Hk; [|by exists e].
  unfold may_replace. destruct (db !! k) as [o|]; [|done]. cbn in He.
  rewrite He. destruct (Z.ltb_spec e (eventId compiledView)).
  - exists (eventId compiledView). cbn. rewrite cache_item_eventId.
    split; [done|lia].
  - exists e. by cbn.
Qed.

Lemma updates_eventId_le failure calls db k e :
  stored_eventId db k = Some e →
  ∃ e', stored_eventId (updates failure calls db) k = Some e' ∧ e ≤ e'.
Proof.
  revert db e. induction calls as [|[[options identifier] v] calls IH];
    intros db e He.
  - exists e. by cbn.
  - cbn [updates foldl fst snd].
    destruct (updateCache_eventId_le failure options identifier v db k e He)
      as (e1 & He1 & Hle1).
    destruct (IH _ _ He1) as (e2 & He2 & Hle2).
    exists e2. split; [done|lia].
Qed.

(** The view's own [namespace] and [viewName], if it has them, are the
    cache's namespace and the identifier of the call. *)
Definition own_key_agrees (options : DDBViewCacheOptions) (identifier : string)
    (compiledView : CompiledView) : Prop :=
  (view_fields compiledView !! "namespace" = None
   ∨ view_fields compiledView !! "namespace" = Some (VStr (namespace options)))
  ∧ (view_fields compiledView !! "viewName" = None
     ∨ view_fields compiledView !! "viewName" = Some (VStr identifier)).

Lemma own_key_agrees_key_of options identifier compiledView :
  own_key_agrees options identifier compiledView →
  Views.key_of (cache_item options identifier compiledView)
  = Some (namespace options, identifier).
Proof.
  intros [Hns Hvn]. unfold Views.key_of, get_str.
  rewrite !cache_item_lookup.
  destruct Hns as [-> | ->], Hvn as [-> | ->]; by repeat case_decide.
Qed.

Lemma getFromCache_stored failure options identifier compiledView db :
  is_Some (ddb options) →
  own_key_agrees options identifier compiledView →
  may_replace db (namespace options, identifier) (eventId compiledView) = true →
  getFromCache options identifier
    (updateCache failure options identifier compiledView db).2
  = Some (cache_item options identifier compiledView).
Proof.
  intros Hclient Hkey%own_key_agrees_key_of Hrep.
  unfold getFromCache, Views.get. destruct Hclient as [client Hclient].
  rewrite Hclient, updateCache_lookup, decide_True, Hrep
    by (rewrite Hclient; eauto). cbn.
  by rewrite views_item_at_id.
Qed.

Lemma may_replace_true db k e :
  may_replace db k e = true
  ↔ db !! k = None ∨ ∃ e0, stored_eventId db k = Some e0 ∧ e0 < e.
Proof.
  rewrite stored_eventId_lookup. unfold may_replace.
  destruct (db !! k) as [o|]; cbn; [|by intuition].
  destruct (get_num o "eventId") as [e0|].
  - rewrite Z.ltb_lt. split; [eauto|].
    by intros [?|(? & [= <-] & ?)].
  - split; [done|]. by intros [?|(? & ? & ?)].
Qed.

(** ** updateCache *)

(** Examples. *)
Definition orders : DDBViewCacheOptions :=
  {| ddb := Some {| region := "us-west-2" |};
     tablename := "views"; namespace := "order" |}.

(** A cache given no client, built before any [createStack] has run. *)
Definition cold_orders : DDBViewCacheOptions :=
  ddbViewCache None {| ddb := None; tablename := "views"; namespace := "order" |}.

Definition summary (e : Z) : CompiledView :=
  {| eventId := e; view_fields := {[ "total" := VNum (e * 10) ]} |}.

(** A view that carries a [viewName] of its own. *)
Definition relabelled : CompiledView :=
  {| eventId := 1; view_fields := {[ "viewName" := VStr "other" ]} |}.

(** A view that is its [eventId] and nothing more. *)
Definition bare (e : Z) : CompiledView :=
  {| eventId := e; view_fields := ∅ |}.

(** The exception of the store for a put whose condition does not hold:
    the name has the word the [catch] block looks for, the message has
    not. *)
Definition ConditionalCheckFailedException : Exception :=
  {| ex_name := "ConditionalCheckFailedException";
     ex_message := Some "The conditional request failed" |}.

(** The views table after a put of [{eventId: 10}] under "id1". *)
Definition holding_10 : Views.table :=
  (updateCache ConditionalCheckFailedException orders "id1" (bare 10) ∅).2.

(** A put that finds an entry whose [eventId] is not below the view's
    changes nothing, and it returns or throws by the test of the [catch]
    block on the exception of the store. *)
Lemma updateCache_stale failure options identifier compiledView db k e :
  is_Some (ddb options) →
  Views.key_of (cache_item options identifier compiledView) = Some k →
  stored_eventId db k = Some e →
  eventId compiledView ≤ e →
  updateCache failure options identifier compiledView db
  = (if is_conditional_failure failure then Returned tt else Thrown failure, db).
Proof.
  intros Hclient Hkey He Hle.
  rewrite (updateCache_unfold _ _ _ _ _ _ Hclient Hkey).
  assert (may_replace db k (eventId compiledView) = false) as ->.
  { apply not_true_is_false. rewrite may_replace_true.
    intros [Hnone|(e0 & He0 & Hlt)].
    - rewrite stored_eventId_lookup, Hnone in He. done.
    - rewrite He in He0. injection He0 as <-. lia. }
  by destruct (is_conditional_failure failure).
Qed.

(** C5. The message of the exception the store raises for a failed
    condition has no "ConditionalCheckFailed" for the test of the [catch]
    block to find.  So every put, through a cache with a client, of a view
    whose [eventId] is not above the one stored under the key of its item
    leaves the table as it is and throws that exception on to the caller.
    On a cache that holds the view of [eventId] 10 under "id1", the put of
    a view of [eventId] 5 under "id1" does so. *)
Theorem stale_put_is_thrown_on :
  is_conditional_failure ConditionalCheckFailedException = false
  ∧ (∀ options identifier compiledView db k e,
       is_Some (ddb options) →
       Views.key_of (cache_item options identifier compiledView) = Some k →
       stored_eventId db k = Some e →
       eventId compiledView ≤ e →
       updateCache ConditionalCheckFailedException options identifier
         compiledView db
       = (Thrown ConditionalCheckFailedException, db))
  ∧ getFromCache orders "id1" holding_10
    = Some (cache_item orders "id1" (bare 10))
  ∧ updateCache ConditionalCheckFailedException orders "id1" (bare 5) holding_10
    = (Thrown ConditionalCheckFailedException, holding_10).
Proof.
  split; [by vm_compute|]. split; [|split].
  - intros options identifier compiledView db k e Hclient Hkey He Hle.
    by rewrite (updateCache_stale _ _ _ _ _ k e).
  - apply (bool_decide_unpack _). by vm_compute.
  - apply (bool_decide_unpack _). by vm_compute.
Qed.

(** A second put of the view that is stored is thrown on as well. *)
Lemma stale_put_is_thrown_on_witness :
  updateCache ConditionalCheckFailedException orders "id1" (bare 10) holding_10
  = (Thrown ConditionalCheckFailedException, holding_10).
Proof.
  destruct stale_put_is_thrown_on as (_ & Hstale & _).
  apply (Hstale orders "id1" (bare 10) holding_10 ("order", "id1") 10).
  - by eexists.
  - by vm_compute.
  - by vm_compute.
  - simpl. lia.
Defined.

(** C6, as stated, fails on a cache without a client: the two puts send
    nothing, and [getFromCache] returns nothing, not the view of [eventId]
    10. *)
Lemma cache_without_client_returns_nothing :
  ddb cold_orders = None
  ∧ getFromCache cold_orders "id1"
      (updates ConditionalCheckFailedException
         [(cold_orders, "id1", bare 10); (cold_orders, "id1", bare 5)] ∅)
    = None
  ∧ getFromCache cold_orders "id1"
      (updates ConditionalCheckFailedException
         [(cold_orders, "id1", bare 10); (cold_orders, "id1", bare 5)] ∅)
    ≠ Some (cache_item cold_orders "id1" (bare 10)).
Proof. split; [done|]. split; [done|]. by intros [=]. Qed.

Lemma own_key_agrees_bare options identifier e :
  own_key_agrees options identifier (bare e).
Proof. split; left; apply lookup_empty. Qed.

(** After a put of a view of [eventId] 10, then 5, then 11, through a
    cache with a client. *)
Lemma puts_10_5_11 failure options id1 v10 v5 v11 db :
  is_Some (ddb options) →
  eventId v10 = 10 → eventId v5 = 5 → eventId v11 = 11 →
  own_key_agrees options id1 v10 →
  own_key_agrees options id1 v11 →
  (db !! (namespace options, id1) = None
   ∨ ∃ e, stored_eventId db (namespace options, id1) = Some e ∧ e < 10) →
  let db2 := updates failure [(options, id1, v10); (options, id1, v5)] db in
  let db3 := updates failure [(options, id1, v11)] db2 in
  getFromCache options id1 db2 = Some (cache_item options id1 v10)
  ∧ stored_eventId db2 (namespace options, id1) = Some 10
  ∧ getFromCache options id1 db3 = Some (cache_item options id1 v11)
  ∧ stored_eventId db3 (namespace options, id1) = Some 11.
Proof.
  intros Hclient H10 H5 H11 Hown10 Hown11 Hfresh.
  cbn [updates foldl fst snd].
  set (db1 := (updateCache failure options id1 v10 db).2).
  set (db2 := (updateCache failure options id1 v5 db1).2).
  apply may_replace_true in Hfresh. rewrite <- H10 in Hfresh.
  assert (db1 !! (namespace options, id1) = Some (cache_item options id1 v10))
    as Hdb1.
  { unfold db1. rewrite updateCache_lookup, decide_True, Hfresh; [done|].
    split; [done|by apply own_key_agrees_key_of]. }
  assert (db2 !! (namespace options, id1) = Some (cache_item options id1 v10))
    as Hdb2.
  { unfold db2. rewrite updateCache_lookup. case_decide; [|done].
    unfold may_replace. rewrite Hdb1, cache_item_eventId.
    destruct (Z.ltb_spec (eventId v10) (eventId v5)); [lia|done]. }
  assert (may_replace db2 (namespace options, id1) (eventId v11) = true)
    as Hrep3.
  { unfold may_replace. rewrite Hdb2, cache_item_eventId.
    apply Z.ltb_lt. lia. }
  assert (∀ v d, own_key_agrees options id1 v →
            d !! (namespace options, id1) = Some (cache_item options id1 v) →
            getFromCache options id1 d = Some (cache_item options id1 v)
            ∧ stored_eventId d (namespace options, id1) = Some (eventId v))
    as Hread.
  { intros v d Hown Hd. rewrite stored_eventId_lookup.
    unfold getFromCache, Views.get. destruct Hclient as [client ->].
    rewrite Hd. cbn.
    rewrite cache_item_eventId, views_item_at_id; [done|].
    by apply own_key_agrees_key_of. }
  destruct (Hread v10 db2 Hown10 Hdb2) as [? ?].
  destruct (Hread v11 (updateCache failure options id1 v11 db2).2 Hown11)
    as [? ?].
  { rewrite updateCache_lookup, decide_True, Hrep3; [done|].
    split; [done|by apply own_key_agrees_key_of]. }
  repeat split; congruence.
Qed.

(** C6, amended. Under every key of the views table the stored [eventId]
    never goes down, whatever [updateCache] calls are made, by whatever
    caches.  And for a cache that has a client and an identifier [id1]
    with no entry yet, or one below 10: after a put of [{eventId: 10}] and
    then of [{eventId: 5}], [getFromCache id1] returns the view of
    [eventId] 10; after a further put of [{eventId: 11}] it returns that
    one.  The same holds of views with more properties, as long as a
    [namespace] or [viewName] of their own is the one of the call. *)
Theorem eventId_never_decreases :
  (∀ failure calls db k e,
     stored_eventId db k = Some e →
     ∃ e', stored_eventId (updates failure calls db) k = Some e' ∧ e ≤ e')
  ∧ (∀ failure options id1 db,
       is_Some (ddb options) →
       (db !! (namespace options, id1) = None
        ∨ ∃ e, stored_eventId db (namespace options, id1) = Some e ∧ e < 10) →
       let db2 := updates failure
                    [(options, id1, bare 10); (options, id1, bare 5)] db in
       let db3 := updates failure [(options, id1, bare 11)] db2 in
       getFromCache options id1 db2 = Some (cache_item options id1 (bare 10))
       ∧ stored_eventId db2 (namespace options, id1) = Some 10
       ∧ getFromCache options id1 db3 = Some (cache_item options id1 (bare 11))
       ∧ stored_eventId db3 (namespace options, id1) = Some 11)
  ∧ (∀ failure options id1 v10 v5 v11 db,
       is_Some (ddb options) →
       eventId v10 = 10 → eventId v5 = 5 → eventId v11 = 11 →
       own_key_agrees options id1 v10 →
       own_key_agrees options id1 v11 →
       (db !! (namespace options, id1) = None
        ∨ ∃ e, stored_eventId db (namespace options, id1) = Some e ∧ e < 10) →
       let db2 := updates failure [(options, id1, v10); (options, id1, v5)] db in
       let db3 := updates failure [(options, id1, v11)] db2 in
       getFromCache options id1 db2 = Some (cache_item options id1 v10)
       ∧ stored_eventId db2 (namespace options, id1) = Some 10
       ∧ getFromCache options id1 db3 = Some (cache_item options id1 v11)
       ∧ stored_eventId db3 (namespace options, id1) = Some 11).
Proof.
  split; [apply updates_eventId_le|]. split.
  - intros failure options id1 db Hclient Hfresh.
    by apply puts_10_5_11; try apply own_key_agrees_bare.
  - intros failure options id1 v10 v5 v11 db. apply puts_10_5_11.
Qed.

Lemma eventId_never_decreases_witness :
  (∃ e', stored_eventId
           (updates ConditionalCheckFailedException
              [(orders, "summary", summary 5); (orders, "other", summary 1)]
              (updates ConditionalCheckFailedException
                 [(orders, "summary", summary 10)] ∅))
           ("order", "summary") = Some e' ∧ 10 ≤ e')
  ∧ getFromCache orders "id1"
      (updates ConditionalCheckFailedException
         [(orders, "id1", bare 10); (orders, "id1", bare 5)] ∅)
    = Some (cache_item orders "id1" (bare 10))
  ∧ getFromCache orders "id1"
      (updates ConditionalCheckFailedException [(orders, "id1", bare 11)]
         (updates ConditionalCheckFailedException
            [(orders, "id1", bare 10); (orders, "id1", bare 5)] ∅))
    = Some (cache_item orders "id1" (bare 11)).
Proof.
  destruct eventId_never_decreases as (Hmono & Hexample & _). split.
  - apply Hmono. by vm_compute.
  - destruct (Hexample ConditionalCheckFailedException orders "id1" ∅
                (ex_intro _ _ eq_refl) (or_introl (lookup_empty _)))
      as (Hget10 & _ & Hget11 & _).
    split; [exact Hget10|exact Hget11].
Defined.

Lemma String_cons_ne (a : ascii) (s : string) : String a s ≠ s.
Proof.
  revert a. induction s as [|b s IH]; intros a; [done|].
  intros [= -> H]. by apply IH in H.
Qed.

(** C10. The item that [updateCache] puts takes its [namespace] and its
    [viewName] from the view whenever the view has such a property, the
    spread coming last, and from the cache's namespace and the identifier
    only otherwise.  The put of a cache that has a client goes to the key
    these two properties of the item name: it tests the entry there and
    writes there.  So through every such cache, under every identifier, a
    view with a [viewName] of its own is written under a key that is not
    (options.namespace, identifier). *)
Theorem view_properties_name_the_key failure options identifier :
  (∀ compiledView,
     let item := cache_item options identifier compiledView in
     item !! "namespace"
     = Some (default (VStr (namespace options))
                     (view_fields compiledView !! "namespace"))
     ∧ item !! "viewName"
       = Some (default (VStr identifier)
                       (view_fields compiledView !! "viewName"))
     ∧ ∀ db ns' v',
         is_Some (ddb options) →
         item !! "namespace" = Some (VStr ns') →
         item !! "viewName" = Some (VStr v') →
         updateCache failure options identifier compiledView db
         = if may_replace db (ns', v') (eventId compiledView)
           then (Returned tt, <[(ns', v') := item]> db)
           else if is_conditional_failure failure then (Returned tt, db)
                else (Thrown failure, db))
  ∧ (is_Some (ddb options) →
     ∃ compiledView k,
       k ≠ (namespace options, identifier)
       ∧ updateCache failure options identifier compiledView ∅
         = (Returned tt, {[ k := cache_item options identifier compiledView ]})
       ∧ getFromCache options identifier
           (updateCache failure options identifier compiledView ∅).2 = None).
Proof.
  split.
  - intros compiledView item. subst item. rewrite !cache_item_lookup.
    split; [|split].
    + case_decide; [done|].
      destruct (view_fields compiledView !! "namespace"); [done|].
      by repeat case_decide.
    + case_decide; [done|].
      destruct (view_fields compiledView !! "viewName"); [done|].
      by repeat case_decide.
    + intros db ns' v' Hclient Hns Hvn. apply updateCache_unfold; [done|].
      unfold Views.key_of, get_str. rewrite !cache_item_lookup.
      by rewrite Hns, Hvn.
  - intros Hclient.
    set (v := {| eventId := 0;
                 view_fields := {[ "viewName" := VStr (String "x" identifier) ]} |}).
    assert (Views.key_of (cache_item options identifier v)
            = Some (namespace options, String "x" identifier)) as Hkey.
    { unfold Views.key_of, get_str. rewrite !cache_item_lookup. cbn.
      by rewrite lookup_singleton_ne, lookup_singleton_eq. }
    exists v, (namespace options, String "x" identifier).
    assert ((namespace options, String "x" identifier)
            ≠ (namespace options, identifier)) as Hne.
    { intros [= H]. by apply String_cons_ne in H. }
    split; [done|].
    rewrite (updateCache_unfold _ _ _ _ _ _ Hclient Hkey).
    unfold may_replace. rewrite lookup_empty. cbn [snd].
    split; [by rewrite insert_empty|].
    unfold getFromCache, Views.get. destruct (ddb options); [|done].
    rewrite lookup_insert_ne by done. by rewrite lookup_empty.
Qed.

Lemma view_properties_name_the_key_witness :
  updateCache ConditionalCheckFailedException orders "summary" relabelled ∅
  = (Returned tt,
     <[("order", "other") := cache_item orders "summary" relabelled]> ∅).
Proof.
  destruct (view_properties_name_the_key ConditionalCheckFailedException
              orders "summary") as [Hitem _].
  destruct (Hitem relabelled) as (_ & _ & Hput).
  exact (Hput ∅ "order" "other" (ex_intro _ _ eq_refl) eq_refl eq_refl).
Defined.

End ViewCache.

(** * The stack registry ([ddbStore]) *)

(** What [createDDBStack] returns: the namespace, and the four operations,
    which are the functions above at these options. *)
Record ESStack := {
  ESStack_namespace : string;
  ESStack_options : DDBStackOptions }.

Definition createDDBStack (options : DDBStackOptions) : ESStack :=
  {| ESStack_namespace := namespace options; ESStack_options := options |}.

(** [`${stackSet}|${stack}`] *)
Definition name (stackSet stack : string) : string :=
  stackSet +:+ "|" +:+ stack.

(** The [stacks] map of one [ddbStore]. *)
Abbreviation registry := (gmap string ESStack).

Definition getStack (stacks : registry) (stackSet stackName : string)
  : option ESStack :=
  stacks !! name stackSet stackName.

Definition createStack (tablename : string) (stackSet stackName : string)
    (stacks : registry) : ESStack * registry :=
  let _name := name stackSet stackName in
  let stack := createDDBStack {| namespace := _name; tablename := tablename |} in
  (stack, <[_name := stack]> stacks).

(** What [createStack] leaves in [sharedDBB], the client of the module:
    [sharedDBB = sharedDBB ?? DynamoDBDocument.from(new DynamoDBClient({
    region: "us-west-2" }))]. *)
Definition createStack_sharedDBB (sharedDBB : option DynamoDBDocument)
  : option DynamoDBDocument :=
  Some (default {| region := "us-west-2" |} sharedDBB).

Definition getOrCreateStack (tablename : string) (stackSet stackName : string)
    (stacks : registry) : ESStack * registry :=
  match getStack stacks stackSet stackName with
  | Some existingStack => (existingStack, stacks)
  | None => createStack tablename stackSet stackName stacks
  end.

(** The separator occurs in a string. *)
Definition has_separator (s : string) : Prop :=
  "|"%char ∈ String.list_ascii_of_string s.

#[global] Instance has_separator_dec s : Decision (has_separator s).
Proof. unfold has_separator. apply _. Defined.

(** *** Splitting at a separator *)

Lemma split_at_first {A} (x : A) (l1 l2 r1 r2 : list A) :
  x ∉ l1 → x ∉ l2 →
  (l1 ++ x :: r1 = l2 ++ x :: r2)%list → l1 = l2 ∧ r1 = r2.
Proof.
  revert l2. induction l1 as [|a l1 IH]; intros [|b l2] H1 H2 Heq; cbn in Heq.
  - by injection Heq as ->.
  - injection Heq as -> _. destruct H2. by left.
  - injection Heq as -> _. destruct H1. by left.
  - injection Heq as -> Heq. apply not_elem_of_cons in H1 as [_ H1].
    apply not_elem_of_cons in H2 as [_ H2].
    destruct (IH l2 H1 H2 Heq) as [-> ->]. done.
Qed.

Lemma split_at_last {A} (x : A) (l1 l2 r1 r2 : list A) :
  x ∉ r1 → x ∉ r2 →
  (l1 ++ x :: r1 = l2 ++ x :: r2)%list → l1 = l2 ∧ r1 = r2.
Proof.
  intros H1 H2 Heq. apply (f_equal reverse) in Heq.
  rewrite !reverse_app, !reverse_cons, <- !app_assoc in Heq. cbn in Heq.
  apply split_at_first in Heq as [Hr Hl]; [|by rewrite elem_of_reverse..].
  split; by apply (inj reverse).
Qed.

Lemma list_ascii_of_string_app (s1 s2 : string) :
  String.list_ascii_of_string (s1 +:+ s2)
  = (String.list_ascii_of_string s1 ++ String.list_ascii_of_string s2)%list.
Proof. induction s1 as [|a s1 IH]; simpl; [done|]. by f_equal. Qed.

Lemma list_ascii_of_string_inj (s1 s2 : string) :
  String.list_ascii_of_string s1 = String.list_ascii_of_string s2 → s1 = s2.
Proof.
  intros H. apply (f_equal String.string_of_list_ascii) in H.
  by rewrite !String.string_of_list_ascii_of_string in H.
Qed.

Lemma name_chars (stackSet stack : string) :
  String.list_ascii_of_string (name stackSet stack)
  = (String.list_ascii_of_string stackSet
     ++ "|"%char :: String.list_ascii_of_string stack)%list.
Proof. unfold name. by rewrite !list_ascii_of_string_app. Qed.

Lemma name_inj (s1 n1 s2 n2 : string) :
  (¬ has_separator s1 ∧ ¬ has_separator s2)
  ∨ (¬ has_separator n1 ∧ ¬ has_separator n2) →
  name s1 n1 = name s2 n2 → s1 = s2 ∧ n1 = n2.
Proof.
  intros Hsep Heq. apply (f_equal String.list_ascii_of_string) in Heq.
  rewrite !name_chars in Heq.
  destruct Hsep as [[H1 H2]|[H1 H2]].
  - apply split_at_first in Heq as [? ?]; [|done..].
    split; by apply list_ascii_of_string_inj.
  - apply split_at_last in Heq as [? ?]; [|done..].
    split; by apply list_ascii_of_string_inj.
Qed.

(** ** Namespaces of the registry *)

(** C8, as stated, fails: the namespace is the two names joined by "|", and
    the pairs ("a|b", "c") and ("a", "b|c") are bound to the one namespace
    "a|b|c"; the stack made for the first is the one the registry gives for
    the second. *)
Lemma separator_in_a_name_collides :
  ("a|b", "c") ≠ ("a", "b|c")
  ∧ ESStack_namespace (createStack "events" "a|b" "c" ∅).1
    = ESStack_namespace (createStack "events" "a" "b|c" ∅).1
  ∧ getOrCreateStack "events" "a" "b|c" (createStack "events" "a|b" "c" ∅).2
    = createStack "events" "a|b" "c" ∅.
Proof. split; [done|]. split; by vm_compute. Qed.

(** C8, amended. For every two distinct identity pairs of which neither
    stream-set contains the separator "|", or neither stream-name does, the
    registry binds them to distinct namespaces, and holds the stack of each
    under its own pair. *)
Theorem distinct_pairs_distinct_namespaces
    (tablename : string) (stacks : registry) (s1 n1 s2 n2 : string) :
  (s1, n1) ≠ (s2, n2) →
  (¬ has_separator s1 ∧ ¬ has_separator s2)
  ∨ (¬ has_separator n1 ∧ ¬ has_separator n2) →
  let created1 := createStack tablename s1 n1 stacks in
  let created2 := createStack tablename s2 n2 created1.2 in
  ESStack_namespace created1.1 = name s1 n1
  ∧ ESStack_namespace created2.1 = name s2 n2
  ∧ ESStack_namespace created1.1 ≠ ESStack_namespace created2.1
  ∧ getStack created2.2 s1 n1 = Some created1.1
  ∧ getStack created2.2 s2 n2 = Some created2.1.
Proof.
  intros Hne Hsep created1 created2.
  assert (name s1 n1 ≠ name s2 n2) as Hnames.
  { intros Heq. apply name_inj in Heq as [-> ->]; done. }
  subst created1 created2. unfold createStack, getStack. cbn.
  repeat split; [done|..].
  - rewrite lookup_insert_ne by done. by rewrite lookup_insert_eq.
  - by rewrite lookup_insert_eq.
Qed.

Lemma distinct_pairs_distinct_namespaces_witness :
  ESStack_namespace (createStack "events" "cart" "4|2" ∅).1
  ≠ ESStack_namespace
      (createStack "events" "order" "42"
                   (createStack "events" "cart" "4|2" ∅).2).1.
Proof.
  apply (distinct_pairs_distinct_namespaces "events" ∅ "cart" "4|2" "order" "42").
  - done.
  - left. split; apply (bool_decide_unpack _); by vm_compute.
Defined.

(** * More on the event stack *)

(** What a call leaves in the table: the table as it was, or the table with
    the event in its slot, which was free. *)
Lemma commitEvent_table options ev db :
  (commitEvent options ev db).2 = db
  ∨ (slot_free options ev db
     ∧ (commitEvent options ev db).2
       = <[slot options ev := event_item options ev]> db).
Proof.
  destruct (decide (ev_id ev < 0)) as [Hneg|Hpos].
  { rewrite commitEvent_negative_id' by done. by left. }
  rewrite commitEvent_unfold by lia. case_bool_decide as Hok; [|by left].
  apply commit_reasons_ok in Hok as [Hfree _]. by right.
Qed.

Lemma commitEvent_other_namespace options ev db (k : Events.key) :
  k.1 ≠ namespace options → (commitEvent options ev db).2 !! k = db !! k.
Proof.
  intros Hk. destruct (commitEvent_table options ev db) as [->|[_ ->]]; [done|].
  apply lookup_insert_ne. unfold slot. intros <-. done.
Qed.

(** [slice] looks at nothing but the partition of its namespace. *)
Lemma slice_ext (options : DDBStackOptions) (start : Z)
    (end1 end2 : option Z) (db1 db2 : Events.table) :
  (∀ i, db1 !! (namespace options, i) = db2 !! (namespace options, i)) →
  slice options start end1 db1 = slice options start end2 db2.
Proof.
  intros Hsame. unfold slice, query.
  cbn [Query.namespace Query.start Query.Limit Query.ScanIndexForward].
  set (keep := λ i : Z, in_range (Some start) i = true).
  assert (merge_sort Z.le (filter keep (partition_ids db1 (namespace options)))
          = merge_sort Z.le (filter keep (partition_ids db2 (namespace options))))
    as ->.
  { apply (StronglySorted_unique Z.le);
      [apply StronglySorted_merge_sort; apply _..|].
    rewrite !merge_sort_Permutation.
    apply NoDup_Permutation; [apply NoDup_filter, NoDup_partition_ids..|].
    intros i. rewrite !list_elem_of_filter, !elem_of_partition_ids.
    by rewrite Hsame. }
  apply list_omap_ext, Forall2_same_length_lookup. split; [done|].
  intros j i i' Hi Hi'. rewrite Hi in Hi'. injection Hi' as <-.
  unfold Events.get. by rewrite Hsame.
Qed.

(** X1. A call of [commitEvent] or [commitAnonymousEvent] on one namespace,
    whatever its event and whatever its outcome, changes nothing of what
    [getEvent] and [slice] return on another namespace. *)
Theorem other_namespaces_untouched options reader ev db :
  namespace reader ≠ namespace options →
  (∀ i, getEvent reader i (commitEvent options ev db).2 = getEvent reader i db)
  ∧ (∀ start end_, slice reader start end_ (commitEvent options ev db).2
                   = slice reader start end_ db)
  ∧ (∀ i, getEvent reader i (commitAnonymousEvent options ev db).2
          = getEvent reader i db)
  ∧ (∀ start end_, slice reader start end_ (commitAnonymousEvent options ev db).2
                   = slice reader start end_ db).
Proof.
  intros Hns.
  assert (∀ ev' i, (commitEvent options ev' db).2 !! (namespace reader, i)
                   = db !! (namespace reader, i)) as Hsame.
  { intros ev' i. by apply commitEvent_other_namespace. }
  unfold commitAnonymousEvent. split; [|split; [|split]].
  - intros i. unfold getEvent, Events.get. by rewrite Hsame.
  - intros start end_. apply slice_ext, Hsame.
  - intros i. unfold getEvent, Events.get. by rewrite Hsame.
  - intros start end_. apply slice_ext, Hsame.
Qed.

Definition wishlist := {| tablename := "events"; namespace := "wishlist|42" |}.

Lemma other_namespaces_untouched_witness :
  slice wishlist 0 None (commitEvent cart (added 2) (committed [0; 1])).2
  = slice wishlist 0 None (committed [0; 1]).
Proof.
  destruct (other_namespaces_untouched cart wishlist (added 2) (committed [0; 1]))
    as (_ & Hslice & _); [by vm_compute|].
  apply Hslice.
Defined.

Lemma perform_keeps_items s st (k : Events.key) o :
  table s !! k = Some o → table (perform s st) !! k = Some o.
Proof.
  intros Hk. destruct st as [options ev|options ev|options ev|j]; cbn.
  - by apply commitEvent_keeps_items.
  - by apply commitEvent_keeps_items.
  - done.
  - destruct (awaiting s !! j) as [[options ev]|]; cbn; [|done].
    by apply commitEvent_keeps_items.
Qed.

(** X2. An event, once stored, is final: whatever calls run afterwards, in
    whatever order, the item under its (namespace, id) stays the same item;
    it is never replaced and never removed. *)
Theorem stored_events_are_final (before after : list step) (k : Events.key) o :
  table (run before) !! k = Some o →
  table (run (before ++ after)) !! k = Some o.
Proof.
  unfold run. rewrite foldl_app.
  generalize (foldl perform {| table := ∅; awaiting := [] |} before).
  induction after as [|st after IH]; intros s Hk; [done|].
  cbn. apply IH. by apply perform_keeps_items.
Qed.

Lemma stored_events_are_final_witness :
  table (run ([Commit cart (added 0)]
              ++ [Commit cart (added 0); Anonymous cart (added 7);
                  Commit cart (with_id (added 0) 1)]))
    !! (namespace cart, 0)
  = Some (event_item cart (added 0)).
Proof.
  apply (stored_events_are_final [Commit cart (added 0)]).
  by vm_compute.
Defined.

(** X3. [slice] returns, in strictly ascending order of id, exactly the
    stored events of the namespace whose id is at least [start], each as
    [getEvent] reads it at its id, and nothing else. *)
Theorem slice_returns_the_stored_suffix (options : DDBStackOptions)
    (start : Z) (end_ : option Z) (db : Events.table) :
  let ids := ids_of (slice options start end_ db) in
  StronglySorted Z.lt ids
  ∧ (∀ i, i ∈ ids ↔ is_Some (db !! (namespace options, i)) ∧ start ≤ i)
  ∧ Forall2 (λ i e, getEvent options i db = Some e) ids
            (slice options start end_ db).
Proof.
  split; [apply slice_ascending|].
  split; [apply elem_of_slice_ids|apply slice_items].
Qed.

Lemma slice_ids_of_gap_free options start end_ db n :
  gap_free db (namespace options) n →
  ids_of (slice options start end_ db)
  = seqZ (Z.max start 0) (Z.of_nat n - Z.max start 0).
Proof.
  intros Hgap. rewrite ids_of_slice.
  destruct (decide (Z.max start 0 ≤ Z.of_nat n)) as [Hle|Hgt].
  - replace (Z.of_nat n - Z.max start 0)
      with (Z.of_nat (Z.to_nat (Z.of_nat n - Z.max start 0))) by lia.
    apply merge_sort_interval; [apply NoDup_filter, NoDup_partition_ids|].
    intros i. rewrite list_elem_of_filter, elem_of_partition_ids.
    cbn. rewrite Z.leb_le. split.
    + intros [Hstart Hstored%Hgap]. lia.
    + intros Hrange. split; [lia|]. apply Hgap. lia.
  - rewrite seqZ_nil by lia.
    assert (filter (λ i, in_range (Some start) i = true)
                   (partition_ids db (namespace options)) = []) as ->; [|done].
    apply elem_of_nil_inv. intros i.
    rewrite list_elem_of_filter, elem_of_partition_ids.
    cbn. rewrite Z.leb_le. intros [Hstart Hstored%Hgap]. lia.
Qed.

(** X4. On a stream that holds the ids 0 .. n-1, [slice] from [start]
    returns the events of the ids from [start] (from 0 when [start] is
    negative) up to n - 1; from a [start] at or past n it returns the empty
    list, and never an error. *)
Theorem slice_of_gap_free_stream options start end_ db n :
  gap_free db (namespace options) n →
  ids_of (slice options start end_ db)
  = seqZ (Z.max start 0) (Z.of_nat n - Z.max start 0)
  ∧ (Z.of_nat n ≤ start → slice options start end_ db = []).
Proof.
  intros Hgap. split; [by apply slice_ids_of_gap_free|].
  intros Hpast. pose proof (slice_items options start end_ db) as Hitems.
  rewrite (slice_ids_of_gap_free _ _ _ _ n Hgap), seqZ_nil in Hitems by lia.
  by apply Forall2_nil_inv_l in Hitems.
Qed.

Lemma gap_free_committed_3 : gap_free (committed [0; 1; 2]) (namespace cart) 3.
Proof.
  intros i. rewrite <- elem_of_partition_ids.
  let l := eval vm_compute in
             (partition_ids (committed [0; 1; 2]) (namespace cart)) in
  change (partition_ids (committed [0; 1; 2]) (namespace cart)) with l.
  rewrite !elem_of_cons, elem_of_nil. lia.
Qed.

Lemma slice_of_gap_free_stream_witness :
  ids_of (slice cart 1 None (committed [0; 1; 2])) = seqZ 1 2
  ∧ slice cart 3 None (committed [0; 1; 2]) = [].
Proof.
  split.
  - apply (slice_of_gap_free_stream cart 1 None (committed [0; 1; 2]) 3).
    apply gap_free_committed_3.
  - apply (slice_of_gap_free_stream cart 3 None (committed [0; 1; 2]) 3);
      [apply gap_free_committed_3|simpl; lia].
Defined.

Lemma nextEventId_gap_free options db n :
  gap_free db (namespace options) n → nextEventId options db = Z.of_nat n.
Proof.
  intros Hgap. destruct n as [|m].
  - apply nextEventId_empty. intros i. apply eq_None_not_Some.
    intros Hi%Hgap. lia.
  - rewrite (nextEventId_highest _ _ (Z.of_nat m)); [lia|apply Hgap; lia|].
    intros i Hi%Hgap. lia.
Qed.

(** X5. With no other writer in between, [commitAnonymousEvent] on a stream
    that holds the ids 0 .. n-1 does not fail: it returns, the event is
    stored under id n and nothing else changes, the stream then holds
    0 .. n, and [slice] from n returns the new event alone. *)
Theorem commitAnonymousEvent_uncontended options ev db n :
  gap_free db (namespace options) n →
  let stored := event_item options (with_id ev (Z.of_nat n)) in
  let db' := <[(namespace options, Z.of_nat n) := stored]> db in
  commitAnonymousEvent options ev db = (Returned tt, db')
  ∧ gap_free db' (namespace options) (S n)
  ∧ ∀ end_, slice options (Z.of_nat n) end_ db' = [stored].
Proof.
  intros Hgap stored db'.
  assert (gap_free db' (namespace options) (S n)) as Hgap'.
  { intros i. subst db'. destruct (decide (i = Z.of_nat n)) as [->|Hi].
    - rewrite lookup_insert_eq. split; [lia|eauto].
    - rewrite lookup_insert_ne by congruence.
      etrans; [apply Hgap|lia]. }
  split; [|split; [done|]].
  - unfold commitAnonymousEvent. rewrite (nextEventId_gap_free _ _ n Hgap).
    rewrite commitEvent_unfold by (cbn; lia).
    rewrite bool_decide_eq_true_2; [done|].
    apply commit_reasons_ok. unfold slot_free, predecessor_stored, slot.
    cbn [with_id ev_id]. split.
    + apply eq_None_not_Some. intros Hi%Hgap. lia.
    + destruct n as [|m]; [by left|]. right. apply Hgap. lia.
  - intros end_.
    pose proof (slice_items options (Z.of_nat n) end_ db') as Hitems.
    rewrite (slice_ids_of_gap_free _ _ _ _ (S n) Hgap') in Hitems.
    replace (Z.max (Z.of_nat n) 0) with (Z.of_nat n) in Hitems by lia.
    replace (Z.of_nat (S n) - Z.of_nat n) with 1 in Hitems by lia.
    change (seqZ (Z.of_nat n) 1) with [Z.of_nat n] in Hitems.
    apply Forall2_cons_inv_l in Hitems as (e & rest & He & Hrest & ->).
    apply Forall2_nil_inv_l in Hrest as ->. f_equal.
    unfold getEvent, Events.get in He. subst db'.
    rewrite lookup_insert_eq in He. cbn in He. injection He as <-.
    exact (item_at_event_item options (with_id ev (Z.of_nat n))).
Qed.

Lemma commitAnonymousEvent_uncontended_witness :
  commitAnonymousEvent cart (added 9) (committed [0; 1; 2])
  = (Returned tt,
     <[(namespace cart, Z.of_nat 3) := event_item cart (with_id (added 9) (Z.of_nat 3))]>
       (committed [0; 1; 2])).
Proof.
  apply (commitAnonymousEvent_uncontended cart (added 9) (committed [0; 1; 2]) 3).
  apply gap_free_committed_3.
Defined.

(** X6. A call of [commitAnonymousEvent] that took its id from a stream
    holding 0 .. n-1 and commits after the stream has grown loses: its
    commit throws, the table stays as it is, and the exception passes the
    test for an event that already exists; above id 0 it does not pass the
    test for an event too far ahead. *)
Theorem late_anonymous_commit_is_a_duplicate options ev db db' n n' :
  gap_free db (namespace options) n →
  gap_free db' (namespace options) n' →
  (n < n')%nat →
  ∃ ex, commitEvent options (with_id ev (nextEventId options db)) db'
        = (Thrown ex, db')
        ∧ already_exists ex = true
        ∧ ((0 < n)%nat → too_far_ahead ex = false).
Proof.
  intros Hgap Hgap' Hlt. rewrite (nextEventId_gap_free _ _ n Hgap).
  rewrite commitEvent_unfold by (cbn; lia).
  assert (¬ slot_free options (with_id ev (Z.of_nat n)) db') as Htaken.
  { unfold slot_free, slot. cbn [with_id ev_id].
    apply not_eq_None_Some, Hgap'. lia. }
  rewrite bool_decide_eq_false_2
    by (rewrite commit_reasons_ok; by intros [? _]).
  eexists. split; [done|]. unfold commit_reasons.
  rewrite decide_False by done. cbn [with_id ev_id].
  destruct n as [|m].
  - split; [by vm_compute|lia].
  - destruct (Z.eqb_spec (Z.of_nat (S m)) 0) as [?|_]; [lia|]. cbn [negb].
    rewrite decide_True; [split; by vm_compute|].
    unfold predecessor_stored. cbn [with_id ev_id]. apply Hgap'. lia.
Qed.

Lemma late_anonymous_commit_is_a_duplicate_witness :
  ∃ ex, commitEvent cart (with_id (added 9) (nextEventId cart (committed [0; 1; 2])))
                    (committed [0; 1; 2; 3])
        = (Thrown ex, committed [0; 1; 2; 3])
        ∧ already_exists ex = true
        ∧ ((0 < 3)%nat → too_far_ahead ex = false).
Proof.
  apply (late_anonymous_commit_is_a_duplicate
           cart (added 9) (committed [0; 1; 2]) (committed [0; 1; 2; 3]) 3 4).
  - apply gap_free_committed_3.
  - intros i. rewrite <- elem_of_partition_ids.
    let l := eval vm_compute in
               (partition_ids (committed [0; 1; 2; 3]) (namespace cart)) in
    change (partition_ids (committed [0; 1; 2; 3]) (namespace cart)) with l.
    rewrite !elem_of_cons, elem_of_nil. lia.
  - lia.
Defined.

(** X7. When a commit of an id above 0 fails, each test of the [catch]
    block tells one sub-condition of the transaction: the exception passes
    the first exactly when an item is already stored at the id, and the
    second exactly when none is stored at the id before; on a stream
    without gaps it passes exactly one of the two. *)
Theorem failed_commit_above_0_tells_why options ev db ex db' :
  0 < ev_id ev →
  commitEvent options ev db = (Thrown ex, db') →
  (already_exists ex = true ↔ is_Some (db !! (namespace options, ev_id ev)))
  ∧ (too_far_ahead ex = true ↔ db !! (namespace options, ev_id ev - 1) = None)
  ∧ ∀ n, gap_free db (namespace options) n →
         already_exists ex = negb (too_far_ahead ex).
Proof.
  intros Hid Hthrown.
  destruct (conflict_tests_exact _ _ _ _ _ Hid Hthrown) as [Hdup Hmiss].
  unfold slot_free, predecessor_stored, slot in *.
  split; [|split].
  - rewrite Hdup. apply not_eq_None_Some.
  - by rewrite Hmiss, eq_None_not_Some.
  - intros n Hgap. by eapply conflict_tests_disjoint.
Qed.

Lemma failed_commit_above_0_tells_why_witness :
  too_far_ahead (Events.TransactionCanceledException
                   [Events.None_; Events.ConditionalCheckFailed]) = true
  ↔ committed [0; 1; 2] !! (namespace cart, ev_id (added 5) - 1) = None.
Proof.
  apply (failed_commit_above_0_tells_why cart (added 5) (committed [0; 1; 2])
           (Events.TransactionCanceledException
              [Events.None_; Events.ConditionalCheckFailed])
           (committed [0; 1; 2])); [simpl; lia|].
  apply (bool_decide_unpack _). by vm_compute.
Defined.

(** * More on the stack registry *)

(** X8. [getOrCreateStack] is stable: the stack it returns is the one the
    registry holds for the pair from then on, a second call returns the
    same stack and leaves the registry as it is, and the stacks held under
    other names are not touched. *)
Theorem getOrCreateStack_stable
    (tablename : string) (stackSet stackName : string) (stacks : registry) :
  let got := getOrCreateStack tablename stackSet stackName stacks in
  getStack got.2 stackSet stackName = Some got.1
  ∧ getOrCreateStack tablename stackSet stackName got.2 = got
  ∧ ∀ stackSet' stackName',
      name stackSet' stackName' ≠ name stackSet stackName →
      getStack got.2 stackSet' stackName' = getStack stacks stackSet' stackName'.
Proof.
  unfold getOrCreateStack, getStack.
  destruct (stacks !! name stackSet stackName) as [existing|] eqn:Hfound; cbn.
  - by rewrite Hfound.
  - rewrite lookup_insert_eq. split; [done|]. split; [done|].
    intros stackSet' stackName' Hne. by rewrite lookup_insert_ne.
Qed.

Lemma getOrCreateStack_stable_witness :
  getStack (getOrCreateStack "events" "cart" "42"
              (createStack "events" "order" "7" ∅).2).2 "order" "7"
  = getStack (createStack "events" "order" "7" ∅).2 "order" "7".
Proof.
  apply (getOrCreateStack_stable "events" "cart" "42"
           (createStack "events" "order" "7" ∅).2).
  by vm_compute.
Defined.

(** Every stack of the registry is the one [createStack] makes for the name
    it is held under, on the table of the store. *)
Definition registry_ok (tablename : string) (stacks : registry) : Prop :=
  ∀ k stack, stacks !! k = Some stack →
    stack = createDDBStack {| tablename := tablename; namespace := k |}.

Lemma registry_ok_empty tablename : registry_ok tablename ∅.
Proof. intros k stack. by rewrite lookup_empty. Qed.

(** X9. In a store whose stacks were all made by [createStack], as they are
    from the empty map on, the stack [getOrCreateStack] gives for a pair is
    the stack of the namespace [name stackSet stackName] on the store's
    table, whether it was found or made, so two stores of one table give
    equal stacks for equal pairs; and the registry stays such a store. *)
Theorem getOrCreateStack_gives_the_named_stack
    (tablename : string) (stackSet stackName : string) (stacks : registry) :
  registry_ok tablename stacks →
  let got := getOrCreateStack tablename stackSet stackName stacks in
  got.1 = createDDBStack {| tablename := tablename;
                            namespace := name stackSet stackName |}
  ∧ ESStack_namespace got.1 = name stackSet stackName
  ∧ registry_ok tablename got.2.
Proof.
  intros Hok. unfold getOrCreateStack, getStack.
  destruct (stacks !! name stackSet stackName) as [existing|] eqn:Hfound; cbn.
  - rewrite (Hok _ _ Hfound). done.
  - split; [done|]. split; [done|]. intros k stack.
    rewrite lookup_insert. case_decide as Hk; [|by apply Hok].
    intros [= <-]. by rewrite Hk.
Qed.

Lemma getOrCreateStack_gives_the_named_stack_witness :
  (getOrCreateStack "events" "cart" "42"
     (getOrCreateStack "events" "order" "7" ∅).2).1
  = createDDBStack {| tablename := "events"; namespace := name "cart" "42" |}.
Proof.
  apply (getOrCreateStack_gives_the_named_stack "events" "cart" "42").
  apply (getOrCreateStack_gives_the_named_stack "events" "order" "7" ∅).
  intros k stack. by rewrite lookup_empty.
Defined.

(** * More on the view cache *)

(** A cache built after a [createStack] has a client. *)
Lemma cache_built_after_createStack_has_client sharedDBB options :
  is_Some (ViewCache.ddb
             (ViewCache.ddbViewCache (createStack_sharedDBB sharedDBB) options)).
Proof. apply ViewCache.ddbViewCache_client. right. by eexists. Qed.

Module ViewCacheFacts.
Import ViewCache.

(** X10. A call of [updateCache] touches at most the entry under the key of
    its item: every other entry is as before, no entry is ever removed, and
    when the call throws the whole table is as before. *)
Theorem updateCache_touches_one_entry (failure : Exception)
    (options : DDBViewCacheOptions) (identifier : string)
    (compiledView : CompiledView) (db : Views.table) :
  let after := updateCache failure options identifier compiledView db in
  (∀ k, Views.key_of (cache_item options identifier compiledView) ≠ Some k →
        after.2 !! k = db !! k)
  ∧ (∀ k, is_Some (db !! k) → is_Some (after.2 !! k))
  ∧ (∀ ex, after.1 = Thrown ex → after.2 = db).
Proof.
  split; [|split].
  - intros k Hk. rewrite updateCache_lookup. rewrite decide_False; [done|].
    by intros [_ ?].
  - intros k Hsome. rewrite updateCache_lookup.
    case_decide; [|done]. by destruct (may_replace _ _ _).
  - intros ex.
    destruct (ddb options) as [client|] eqn:Hclient;
      [|by rewrite updateCache_no_client].
    assert (is_Some (ddb options)) as Hsome by (rewrite Hclient; eauto).
    destruct (Views.key_of (cache_item options identifier compiledView))
      as [k|] eqn:Hk.
    + rewrite (updateCache_unfold _ _ _ _ _ k Hsome Hk).
      destruct (may_replace _ _ _); [done|].
      by destruct (is_conditional_failure failure).
    + by rewrite updateCache_no_key.
Qed.

Lemma updateCache_touches_one_entry_witness :
  (updateCache ConditionalCheckFailedException orders "summary" (summary 3)
     (updateCache ConditionalCheckFailedException orders "totals"
        (summary 1) ∅).2).2
    !! ("order", "totals")
  = (updateCache ConditionalCheckFailedException orders "totals"
       (summary 1) ∅).2
      !! ("order", "totals").
Proof.
  apply (updateCache_touches_one_entry ConditionalCheckFailedException orders "summary"
           (summary 3)).
  by vm_compute.
Defined.

(** X11. [updateCache] is idempotent on the table: the same call made twice
    leaves what it left the first time, the second being a put of an
    [eventId] that is not below the stored one. *)
Theorem updateCache_twice (failure : Exception)
    (options : DDBViewCacheOptions) (identifier : string)
    (compiledView : CompiledView) (db : Views.table) :
  (updateCache failure options identifier compiledView
     (updateCache failure options identifier compiledView db).2).2
  = (updateCache failure options identifier compiledView db).2.
Proof.
  destruct (ddb options) as [client|] eqn:Hclient;
    [|by rewrite !updateCache_no_client].
  assert (is_Some (ddb options)) as Hsome by (rewrite Hclient; eauto).
  destruct (Views.key_of (cache_item options identifier compiledView))
    as [k|] eqn:Hk; [|by rewrite !updateCache_no_key].
  rewrite (updateCache_unfold _ _ _ _ db k Hsome Hk).
  destruct (may_replace db k (eventId compiledView)) eqn:Hrep.
  - cbn [snd]. rewrite (updateCache_unfold _ _ _ _ _ k Hsome Hk).
    assert (may_replace
              (<[k := cache_item options identifier compiledView]> db) k
              (eventId compiledView) = false) as ->.
    { unfold may_replace. rewrite lookup_insert_eq, cache_item_eventId.
      apply Z.ltb_irrefl. }
    by destruct (is_conditional_failure failure).
  - assert ((if is_conditional_failure failure
             then (Returned tt, db) else (Thrown failure, db)).2 = db) as ->
      by by destruct (is_conditional_failure failure).
    rewrite (updateCache_unfold _ _ _ _ _ k Hsome Hk), Hrep.
    by destruct (is_conditional_failure failure).
Qed.

(** The calls that put the given views, in their order, through one cache
    under one identifier. *)
Definition puts (options : DDBViewCacheOptions) (identifier : string)
    (views : list CompiledView) : list call :=
  (λ v, (options, identifier, v)) <$> views.

Lemma puts_keep_the_highest failure options identifier views db e0 :
  is_Some (ddb options) →
  Forall (own_key_agrees options identifier) views →
  stored_eventId db (namespace options, identifier) = Some e0 →
  stored_eventId (updates failure (puts options identifier views) db)
                 (namespace options, identifier)
  = Some (foldl Z.max e0 (eventId <$> views)).
Proof.
  intros Hclient Hown. revert db e0.
  induction Hown as [|v views Hv _ IH]; intros db e0 He0; [done|].
  cbn [puts fmap list_fmap updates foldl fst snd]. apply IH.
  rewrite stored_eventId_lookup in *. rewrite updateCache_lookup.
  rewrite decide_True by (split; [done|by apply own_key_agrees_key_of]).
  unfold may_replace.
  destruct (db !! (namespace options, identifier)) as [o|]; [|done].
  cbn in He0. rewrite He0.
  destruct (Z.ltb_spec e0 (eventId v)); cbn.
  - rewrite cache_item_eventId. f_equal. lia.
  - rewrite He0. f_equal. lia.
Qed.

Lemma foldl_max_spec (e0 : Z) (es : list Z) :
  let m := foldl Z.max e0 es in
  (m = e0 ∨ m ∈ es) ∧ e0 ≤ m ∧ ∀ e, e ∈ es → e ≤ m.
Proof.
  revert e0. induction es as [|e es IH]; intros e0; cbn.
  - split; [by left|]. split; [lia|]. by intros e ?%elem_of_nil.
  - destruct (IH (Z.max e0 e)) as ([Hm|Hm] & Hle & Hall).
    + split; [|split; [lia|]].
      * rewrite Hm. destruct (Z.max_spec e0 e) as [[_ ->]|[_ ->]];
          [right; by left|by left].
      * intros e' [->|He']%elem_of_cons; [lia|by apply Hall].
    + split; [right; by right|]. split; [lia|].
      intros e' [->|He']%elem_of_cons; [lia|by apply Hall].
Qed.

(** X12. Puts of views through one cache that has a client, under one
    identifier with no entry there before, leave the entry with the highest
    [eventId] among them, in whatever order they are made; the views are
    such that a [namespace] or [viewName] of their own is the one of the
    call. *)
Theorem highest_eventId_wins failure options identifier views db :
  is_Some (ddb options) →
  Forall (own_key_agrees options identifier) views →
  views ≠ [] →
  db !! (namespace options, identifier) = None →
  ∃ m, stored_eventId (updates failure (puts options identifier views) db)
                      (namespace options, identifier) = Some m
       ∧ m ∈ eventId <$> views
       ∧ ∀ v, v ∈ views → eventId v ≤ m.
Proof.
  intros Hclient Hown Hne Hnone. destruct views as [|v views]; [done|].
  apply Forall_cons in Hown as [Hv Hown].
  cbn [puts fmap list_fmap updates foldl fst snd].
  set (db1 := (updateCache failure options identifier v db).2).
  assert (stored_eventId db1 (namespace options, identifier)
          = Some (eventId v)) as Hfirst.
  { rewrite stored_eventId_lookup. unfold db1.
    rewrite updateCache_lookup.
    rewrite decide_True by (split; [done|by apply own_key_agrees_key_of]).
    unfold may_replace. rewrite Hnone. cbn. apply cache_item_eventId. }
  exists (foldl Z.max (eventId v) (eventId <$> views)).
  split; [by apply puts_keep_the_highest|].
  destruct (foldl_max_spec (eventId v) (eventId <$> views))
    as ([Hm|Hm] & Hle & Hall).
  - split; [rewrite Hm; by left|].
    intros w [->|Hw]%elem_of_cons; [done|].
    apply Hall, list_elem_of_fmap. eauto.
  - split; [by right|].
    intros w [->|Hw]%elem_of_cons; [done|].
    apply Hall, list_elem_of_fmap. eauto.
Qed.

Lemma highest_eventId_wins_witness :
  ∃ m, stored_eventId
         (updates ConditionalCheckFailedException
            (puts orders "id1" [bare 4; bare 9; bare 2]) ∅)
         ("order", "id1") = Some m
       ∧ m ∈ eventId <$> [bare 4; bare 9; bare 2]
       ∧ ∀ v, v ∈ [bare 4; bare 9; bare 2] → eventId v ≤ m.
Proof.
  apply (highest_eventId_wins ConditionalCheckFailedException orders "id1"
           [bare 4; bare 9; bare 2] ∅).
  - by eexists.
  - repeat constructor; left; apply lookup_empty.
  - done.
  - apply lookup_empty.
Defined.

(** X13. A put, through a cache that has a client, of a view whose
    [eventId] is not above the one stored under the key of its item never
    changes the table, and it returns or throws by the message of the
    exception the store raised alone: it returns when there is no message
    or the message contains "ConditionalCheckFailed", and throws that
    exception on otherwise. *)
Theorem stale_put_returns_or_rethrows (failure : Exception)
    (options : DDBViewCacheOptions) (identifier : string)
    (compiledView : CompiledView) (db : Views.table) (k : Views.key) (e : Z) :
  is_Some (ddb options) →
  Views.key_of (cache_item options identifier compiledView) = Some k →
  stored_eventId db k = Some e →
  eventId compiledView ≤ e →
  updateCache failure options identifier compiledView db
  = (if is_conditional_failure failure then Returned tt else Thrown failure, db)
  ∧ (is_conditional_failure failure = true
     ↔ ex_message failure = None
       ∨ ∃ m n, ex_message failure = Some m
                ∧ String.index 0 "ConditionalCheckFailed" m = Some n).
Proof.
  intros Hclient Hkey He Hle. split.
  - by apply (updateCache_stale _ _ _ _ _ k e).
  - unfold is_conditional_failure, truthy, not_indexOf, indexOf.
    destruct (ex_message failure) as [m|].
    + destruct (String.index 0 "ConditionalCheckFailed" m) as [n|] eqn:Hidx.
      * split; [intros _; right; by exists m, n|]. intros _.
        apply negb_true_iff, Z.eqb_neq. unfold Z.lnot. lia.
      * split; [done|]. intros [?|(? & ? & [= <-] & ?)]; congruence.
    + split; [intros _; by left|done].
Qed.

Lemma stale_put_returns_or_rethrows_witness :
  updateCache ConditionalCheckFailedException orders "id1" (bare 5) holding_10
  = (if is_conditional_failure ConditionalCheckFailedException
     then Returned tt else Thrown ConditionalCheckFailedException,
     holding_10).
Proof.
  apply (stale_put_returns_or_rethrows ConditionalCheckFailedException orders
           "id1" (bare 5) holding_10 ("order", "id1") 10).
  - by eexists.
  - by vm_compute.
  - by vm_compute.
  - simpl. lia.
Defined.

(** [res?.Item as CompiledView]: the item itself, taken as a view. *)
Definition as_CompiledView (item : obj) : option CompiledView :=
  e ← get_num item "eventId";
  Some {| eventId := e; view_fields := item |}.

(** [{ ...view, eventId }] *)
Definition with_eventId (view : CompiledView) (e : Z) : CompiledView :=
  {| eventId := e; view_fields := view_fields view |}.

(** X14. What [getFromCache] returns carries the [namespace] and the
    [viewName] it is stored under.  Put back through the same cache, with
    whatever [eventId], it therefore goes to the key it was read from: under
    the same identifier that is the key of the call, and under another
    identifier the call neither tests nor writes the entry of that
    identifier. *)
Theorem view_read_from_cache_keeps_its_key (failure : Exception)
    (options : DDBViewCacheOptions) (identifier other : string)
    (db : Views.table) (item : obj) (view : CompiledView) (e : Z) :
  getFromCache options identifier db = Some item →
  as_CompiledView item = Some view →
  own_key_agrees options identifier (with_eventId view e)
  ∧ Views.key_of (cache_item options other (with_eventId view e))
    = Some (namespace options, identifier)
  ∧ (other ≠ identifier →
     ∀ db', (updateCache failure options other (with_eventId view e) db').2
              !! (namespace options, other)
            = db' !! (namespace options, other)).
Proof.
  unfold getFromCache, Views.get, as_CompiledView. intros Hget Hview.
  destruct (ddb options) as [client|]; [|done].
  destruct (db !! (namespace options, identifier)) as [o|]; [|done].
  injection Hget as <-.
  destruct (get_num _ "eventId") as [e0|]; [|done]. injection Hview as <-.
  assert (Views.item_at (namespace options, identifier) o !! "namespace"
          = Some (VStr (namespace options))) as Hns
    by apply lookup_insert_eq.
  assert (Views.item_at (namespace options, identifier) o !! "viewName"
          = Some (VStr identifier)) as Hvn.
  { unfold Views.item_at. rewrite lookup_insert_ne by done.
    apply lookup_insert_eq. }
  assert (Views.key_of (cache_item options other
            (with_eventId {| eventId := e0;
                             view_fields := Views.item_at
                                              (namespace options, identifier) o |} e))
          = Some (namespace options, identifier)) as Hkey.
  { unfold Views.key_of, get_str. rewrite !cache_item_lookup.
    cbn [with_eventId view_fields]. rewrite Hns, Hvn. by repeat case_decide. }
  split; [split; by right|]. split; [done|].
  intros Hother db'. rewrite updateCache_lookup, Hkey.
  rewrite decide_False; [done|]. intros [_ ?]. congruence.
Qed.

Lemma view_read_from_cache_keeps_its_key_witness :
  Views.key_of
    (cache_item orders "id2"
       (with_eventId {| eventId := 10;
                        view_fields := cache_item orders "id1" (bare 10) |} 11))
  = Some ("order", "id1").
Proof.
  apply (view_read_from_cache_keeps_its_key ConditionalCheckFailedException orders
           "id1" "id2"
           (updateCache ConditionalCheckFailedException orders "id1" (bare 10) ∅).2
           (cache_item orders "id1" (bare 10))).
  - apply (bool_decide_unpack _). by vm_compute.
  - unfold as_CompiledView. by rewrite cache_item_eventId.
Defined.

End ViewCacheFacts.

(** * The remote executor ([createPlatformEventsExecutor]) *)

Module Executor.

(** A string stands for the UTF-8 text of the JavaScript string, a
    character of it for one byte. *)

Definition between (lo hi : N) (c : ascii) : bool :=
  ((lo <=? N_of_ascii c) && (N_of_ascii c <=? hi))%N.

Definition uriAlpha (c : ascii) : bool := between 65 90 c || between 97 122 c.

Definition DecimalDigit (c : ascii) : bool := between 48 57 c.

Definition uriMark (c : ascii) : bool :=
  existsb (Ascii.eqb c) (String.list_ascii_of_string "-_.!~*'()").

(** The characters [encodeURIComponent] leaves as they are. *)
Definition uriUnreserved (c : ascii) : bool :=
  uriAlpha c || DecimalDigit c || uriMark c.

Definition hex_digit (d : N) : ascii :=
  ascii_of_N (if (d <? 10)%N then 48 + d else 55 + d).

(** Every other byte becomes "%" and its two upper-case hexadecimal
    digits. *)
Definition escape (c : ascii) : string :=
  String "%" (String (hex_digit (N_of_ascii c / 16))
                     (String (hex_digit (N_of_ascii c mod 16)) "")).

Fixpoint encodeURIComponent (s : string) : string :=
  match s with
  | EmptyString => ""
  | String c s' =>
      (if uriUnreserved c then String c "" else escape c)
      +:+ encodeURIComponent s'
  end.

(** The three URLs, as [compileView], [compileQuery] and [executeAction]
    build them before they call [fetch]. *)
Definition compileView_url (baseUrl stackName viewName namespace : string)
  : string :=
  baseUrl +:+ "/v1/views/" +:+ encodeURIComponent stackName +:+ "/"
  +:+ encodeURIComponent viewName +:+ "/" +:+ encodeURIComponent namespace.

Definition compileQuery_url (baseUrl stackName queryName namespace : string)
  : string :=
  baseUrl +:+ "/v1/query/" +:+ encodeURIComponent stackName +:+ "/"
  +:+ encodeURIComponent queryName +:+ "/" +:+ encodeURIComponent namespace.

Definition executeAction_url (baseUrl stackName actionName namespace : string)
  : string :=
  baseUrl +:+ "/v1/actions/" +:+ encodeURIComponent stackName +:+ "/"
  +:+ encodeURIComponent actionName +:+ "/" +:+ encodeURIComponent namespace.

(** The request each of the three hands to [fetch]: its method and its
    URL.  [compileView] calls [fetch] with the URL alone, which is a GET. *)
Record Request := { method : string; url : string }.

Definition compileView_request (baseUrl stackName viewName namespace : string)
  : Request :=
  {| method := "GET";
     url := compileView_url baseUrl stackName viewName namespace |}.

Definition compileQuery_request (baseUrl stackName queryName namespace : string)
  : Request :=
  {| method := "POST";
     url := compileQuery_url baseUrl stackName queryName namespace |}.

Definition executeAction_request (baseUrl stackName actionName namespace : string)
  : Request :=
  {| method := "POST";
     url := executeAction_url baseUrl stackName actionName namespace |}.

Definition hex_value (h : ascii) : N :=
  (if N_of_ascii h <? 58 then N_of_ascii h - 48 else N_of_ascii h - 55)%N.

Lemma escape_decodes (c : ascii) :
  ∃ h1 h2, escape c = String "%" (String h1 (String h2 ""))
           ∧ ascii_of_N (16 * hex_value h1 + hex_value h2) = c
           ∧ uriUnreserved h1 = true ∧ uriUnreserved h2 = true.
Proof.
  destruct c as [[] [] [] [] [] [] [] []];
    eexists; eexists; (split; [reflexivity|]); by vm_compute.
Qed.

Lemma percent_reserved : uriUnreserved "%" = false.
Proof. reflexivity. Qed.

(** The characters of an encoded string. *)
Lemma encoded_chars (s : string) :
  Forall (λ c, uriUnreserved c = true ∨ c = "%"%char)
         (String.list_ascii_of_string (encodeURIComponent s)).
Proof.
  induction s as [|c s IH]; [constructor|]. cbn [encodeURIComponent].
  rewrite list_ascii_of_string_app. apply Forall_app. split; [|done].
  destruct (uriUnreserved c) eqn:Hc.
  - apply Forall_singleton. by left.
  - destruct (escape_decodes c) as (h1 & h2 & -> & _ & Hh1 & Hh2).
    cbn [String.list_ascii_of_string].
    apply Forall_cons. split; [by right|].
    apply Forall_cons. split; [by left|].
    apply Forall_singleton. by left.
Qed.

Lemma encodeURIComponent_inj (s1 s2 : string) :
  encodeURIComponent s1 = encodeURIComponent s2 → s1 = s2.
Proof.
  revert s2. induction s1 as [|c s1 IH]; intros [|d s2];
    cbn [encodeURIComponent].
  - done.
  - destruct (uriUnreserved d); [done|].
    by destruct (escape_decodes d) as (? & ? & -> & _).
  - destruct (uriUnreserved c); [done|].
    by destruct (escape_decodes c) as (? & ? & -> & _).
  - destruct (uriUnreserved c) eqn:Hc, (uriUnreserved d) eqn:Hd.
    + intros [= -> Heq]. f_equal. by apply IH.
    + destruct (escape_decodes d) as (? & ? & -> & _).
      intros [= -> _]. by rewrite percent_reserved in Hc.
    + destruct (escape_decodes c) as (? & ? & -> & _).
      intros [= <- _]. by rewrite percent_reserved in Hd.
    + intros Heq.
      destruct (escape_decodes c) as (h1 & h2 & Hec & Hc' & _).
      destruct (escape_decodes d) as (k1 & k2 & Hed & Hd' & _).
      rewrite Hec, Hed in Heq. simpl in Heq. injection Heq as -> -> Hrest.
      f_equal; [congruence|by apply IH].
Qed.

(** X15. [encodeURIComponent] gives only unreserved characters and "%", so
    no "/", "?", "#" or "|", and it loses nothing: two strings with the same
    encoding are the same string. *)
Theorem encodeURIComponent_is_safe_and_injective :
  (∀ s c, c ∈ String.list_ascii_of_string (encodeURIComponent s) →
          uriUnreserved c = true ∨ c = "%"%char)
  ∧ (∀ s c, c ∈ String.list_ascii_of_string "/?#|" →
            c ∉ String.list_ascii_of_string (encodeURIComponent s))
  ∧ (∀ s1 s2, encodeURIComponent s1 = encodeURIComponent s2 → s1 = s2).
Proof.
  split; [|split].
  - intros s c Hc. pose proof (encoded_chars s) as Hall.
    rewrite Forall_forall in Hall. by apply Hall.
  - intros s c Hsep Hc. pose proof (encoded_chars s) as Hall.
    rewrite Forall_forall in Hall. specialize (Hall c Hc).
    cbn in Hsep. rewrite !elem_of_cons, elem_of_nil in Hsep.
    destruct Hsep as [->|[->|[->|[->|[]]]]]; by destruct Hall.
  - apply encodeURIComponent_inj.
Qed.

Lemma encodeURIComponent_is_safe_and_injective_witness :
  "/"%char ∉ String.list_ascii_of_string (encodeURIComponent "cart|4/2").
Proof.
  destruct encodeURIComponent_is_safe_and_injective as (_ & Hsep & _).
  apply Hsep. by left.
Defined.

Lemma no_slash_in_encoded (s : string) :
  "/"%char ∉ String.list_ascii_of_string (encodeURIComponent s).
Proof.
  intros Hc. pose proof (encoded_chars s) as Hall.
  rewrite Forall_forall in Hall. by destruct (Hall _ Hc).
Qed.

(** Three encoded segments joined by "/" can be told apart again. *)
Lemma segments_inj (a1 b1 c1 a2 b2 c2 : string) :
  encodeURIComponent a1 +:+ "/" +:+ encodeURIComponent b1 +:+ "/"
    +:+ encodeURIComponent c1
  = encodeURIComponent a2 +:+ "/" +:+ encodeURIComponent b2 +:+ "/"
    +:+ encodeURIComponent c2 →
  a1 = a2 ∧ b1 = b2 ∧ c1 = c2.
Proof.
  intros Heq. apply (f_equal String.list_ascii_of_string) in Heq.
  rewrite !list_ascii_of_string_app in Heq.
  cbn [String.list_ascii_of_string app] in Heq.
  apply split_at_first in Heq as [Ha Heq]; [|apply no_slash_in_encoded..].
  apply split_at_first in Heq as [Hb Hc]; [|apply no_slash_in_encoded..].
  repeat split;
    by apply encodeURIComponent_inj, list_ascii_of_string_inj.
Qed.

(** X16. For one base URL, the URL that [compileView], [compileQuery] or
    [executeAction] calls determines the stack type, the view, query or
    action name and the namespace: different triples never give the same
    URL, whatever characters the names hold. *)
Theorem urls_determine_their_parts (baseUrl : string) :
  (∀ s1 v1 n1 s2 v2 n2,
     compileView_url baseUrl s1 v1 n1 = compileView_url baseUrl s2 v2 n2 →
     s1 = s2 ∧ v1 = v2 ∧ n1 = n2)
  ∧ (∀ s1 q1 n1 s2 q2 n2,
       compileQuery_url baseUrl s1 q1 n1 = compileQuery_url baseUrl s2 q2 n2 →
       s1 = s2 ∧ q1 = q2 ∧ n1 = n2)
  ∧ (∀ s1 a1 n1 s2 a2 n2,
       executeAction_url baseUrl s1 a1 n1 = executeAction_url baseUrl s2 a2 n2 →
       s1 = s2 ∧ a1 = a2 ∧ n1 = n2).
Proof.
  split; [|split]; intros s1 x1 n1 s2 x2 n2 Heq;
    apply (inj (String.append baseUrl)), (inj (String.append _)) in Heq;
    by apply segments_inj.
Qed.

Lemma urls_determine_their_parts_witness :
  "cart" = "cart" ∧ "totals" = "totals" ∧ "cart|42" = "cart|42".
Proof.
  destruct (urls_determine_their_parts "https://api") as (Hviews & _ & _).
  apply (Hviews "cart" "totals" "cart|42" "cart" "totals" "cart|42").
  reflexivity.
Defined.

End Executor.

(** * The platform ([setupEventStack]) *)

Module Platform.

(** The route key of [createApiGatewayRoute]: [`${method} ${path}`]. *)
Definition routeKey (method path : string) : string :=
  method +:+ " " +:+ path.

(** The routes of [createActionsInAWS], [createQueryInAWS] and
    [createViewGetterInAWS]. *)
Definition action_route (stackType actionType : string) : string :=
  routeKey "POST" ("/v1/actions/" +:+ stackType +:+ "/" +:+ actionType +:+ "/{id}").

Definition query_route (prefix queryType : string) : string :=
  routeKey "POST" ("/v1/query/" +:+ prefix +:+ "/" +:+ queryType +:+ "/{id}").

Definition view_route (prefix viewType : string) : string :=
  routeKey "GET" ("/v1/views/" +:+ prefix +:+ "/" +:+ viewType +:+ "/{id}").

(** An entry put on the event bus, and the rule of a target. *)
Record Entry := {
  EventBusName : string;
  Source : string;
  DetailType : string;
  Detail_id : string }.

Record EventPattern := {
  source : list string;
  detail_type : list string }.

Record EventRule := {
  rule_name : string;
  eventBusName : string;
  eventPattern : EventPattern }.

(** The entry the lambda of an action puts once the action went through. *)
Definition action_entry (eventBusName stackType actionType itemId : string)
  : Entry :=
  {| EventBusName := eventBusName;
     Source := "sctrl.events";
     DetailType := stackType +:+ "." +:+ actionType;
     Detail_id := itemId |}.

(** [Object.entries(view.events).map(... => `${prefix}.${eventName}`)] *)
Definition eventNames (prefix : string) (events : list string) : list string :=
  (λ eventName, prefix +:+ "." +:+ eventName) <$> events.

(** The rule of [createViewProjectorInAWS]; a view without events gets
    none, the function returning before it declares anything. *)
Definition projector_rule (eventBusName prefix viewType : string)
    (events : list string) : option EventRule :=
  if bool_decide (eventNames prefix events = []) then None
  else Some {| rule_name := prefix +:+ "_" +:+ viewType +:+ "_rule";
               eventBusName := eventBusName;
               eventPattern := {| source := ["sctrl.events"];
                                  detail_type := eventNames prefix events |} |}.

(** The rule of [actionTrigger]. *)
Definition actionTrigger_rule (name_ eventBusName stackType action : string)
  : EventRule :=
  {| rule_name := stackType +:+ "_" +:+ action +:+ "_" +:+ name_ +:+ "_rule";
     eventBusName := eventBusName;
     eventPattern := {| source := ["sctrl.events"];
                        detail_type := [stackType +:+ "." +:+ action] |} |}.

(** The bus hands an entry to the target of a rule of that bus when the
    source and the detail type of the entry are among those of the
    pattern. *)
Definition triggers (rule : EventRule) (entry : Entry) : Prop :=
  EventBusName entry = eventBusName rule
  ∧ Source entry ∈ source (eventPattern rule)
  ∧ DetailType entry ∈ detail_type (eventPattern rule).

Definition has_dot (s : string) : Prop :=
  "."%char ∈ String.list_ascii_of_string s.

#[global] Instance has_dot_dec s : Decision (has_dot s).
Proof. unfold has_dot. apply _. Defined.

Lemma dotted_inj (s1 a1 s2 a2 : string) :
  ¬ has_dot s1 → ¬ has_dot s2 →
  s1 +:+ "." +:+ a1 = s2 +:+ "." +:+ a2 → s1 = s2 ∧ a1 = a2.
Proof.
  intros H1 H2 Heq. apply (f_equal String.list_ascii_of_string) in Heq.
  rewrite !list_ascii_of_string_app in Heq.
  cbn [String.list_ascii_of_string app] in Heq.
  apply split_at_first in Heq as [? ?]; [|done..].
  split; by apply list_ascii_of_string_inj.
Qed.

Lemma string_app_assoc (s1 s2 s3 : string) :
  (s1 +:+ s2) +:+ s3 = s1 +:+ s2 +:+ s3.
Proof.
  induction s1 as [|c s1 IH]; [done|].
  change (String c ((s1 +:+ s2) +:+ s3) = String c (s1 +:+ s2 +:+ s3)).
  by rewrite IH.
Qed.

Lemma encodeURIComponent_unreserved (s : string) :
  Forall (λ c, Executor.uriUnreserved c = true) (String.list_ascii_of_string s) →
  Executor.encodeURIComponent s = s.
Proof.
  induction s as [|c s IH]; [done|]. intros Hall.
  cbn [String.list_ascii_of_string] in Hall.
  apply Forall_cons in Hall as [Hc Hs].
  cbn [Executor.encodeURIComponent]. rewrite Hc. simpl. f_equal. by apply IH.
Qed.

(** X17. For a stack type and a view, query or action name made of
    unreserved characters, the request of the executor has the method of
    the route the platform declares for them, and its URL is the base URL
    followed by the path of that route with the encoded namespace in the
    place of "{id}". *)
Theorem requests_follow_the_routes (baseUrl stackType type namespace : string) :
  Forall (λ c, Executor.uriUnreserved c = true)
         (String.list_ascii_of_string stackType) →
  Forall (λ c, Executor.uriUnreserved c = true)
         (String.list_ascii_of_string type) →
  let id := Executor.encodeURIComponent namespace in
  (∃ stem,
     view_route stackType type = "GET " +:+ stem +:+ "{id}"
     ∧ Executor.compileView_request baseUrl stackType type namespace
       = {| Executor.method := "GET";
            Executor.url := baseUrl +:+ stem +:+ id |})
  ∧ (∃ stem,
       query_route stackType type = "POST " +:+ stem +:+ "{id}"
       ∧ Executor.compileQuery_request baseUrl stackType type namespace
         = {| Executor.method := "POST";
              Executor.url := baseUrl +:+ stem +:+ id |})
  ∧ (∃ stem,
       action_route stackType type = "POST " +:+ stem +:+ "{id}"
       ∧ Executor.executeAction_request baseUrl stackType type namespace
         = {| Executor.method := "POST";
              Executor.url := baseUrl +:+ stem +:+ id |}).
Proof.
  intros Hstack%encodeURIComponent_unreserved Htype%encodeURIComponent_unreserved id.
  unfold Executor.compileView_request, Executor.compileQuery_request,
    Executor.executeAction_request, Executor.compileView_url,
    Executor.compileQuery_url, Executor.executeAction_url,
    view_route, query_route, action_route, routeKey.
  rewrite Hstack, Htype. split; [|split].
  - exists ("/v1/views/" +:+ stackType +:+ "/" +:+ type +:+ "/").
    rewrite !string_app_assoc. done.
  - exists ("/v1/query/" +:+ stackType +:+ "/" +:+ type +:+ "/").
    rewrite !string_app_assoc. done.
  - exists ("/v1/actions/" +:+ stackType +:+ "/" +:+ type +:+ "/").
    rewrite !string_app_assoc. done.
Qed.

Lemma requests_follow_the_routes_witness :
  ∃ stem,
    view_route "cart" "totals" = "GET " +:+ stem +:+ "{id}"
    ∧ Executor.compileView_request "https://api" "cart" "totals" "cart|42"
      = {| Executor.method := "GET";
           Executor.url := "https://api" +:+ stem
                           +:+ Executor.encodeURIComponent "cart|42" |}.
Proof.
  apply (requests_follow_the_routes "https://api" "cart" "totals" "cart|42");
    apply (bool_decide_unpack _); by vm_compute.
Defined.

(** X18. With stack types that hold no ".", the projector of a view is
    triggered by the entry of an action exactly when the action belongs to
    the stack type of the view and is one of the events of the view; a view
    without events has no rule and is never triggered. *)
Theorem projector_is_triggered_by_its_events
    (bus prefix viewType : string) (events : list string)
    (stackType actionType itemId : string) :
  ¬ has_dot prefix → ¬ has_dot stackType →
  (∃ rule, projector_rule bus prefix viewType events = Some rule
           ∧ triggers rule (action_entry bus stackType actionType itemId))
  ↔ stackType = prefix ∧ actionType ∈ events.
Proof.
  intros Hprefix Hstack. unfold projector_rule, triggers, action_entry.
  split.
  - intros (rule & Hrule & _ & _ & Hdetail).
    case_bool_decide as Hnone; [done|]. injection Hrule as <-.
    cbn in Hdetail. unfold eventNames in Hdetail.
    apply list_elem_of_fmap in Hdetail as (eventName & Heq & Hin).
    apply dotted_inj in Heq as [-> ->]; done.
  - intros [-> Hin].
    assert (prefix +:+ "." +:+ actionType ∈ eventNames prefix events) as Hnames.
    { unfold eventNames. apply list_elem_of_fmap. eauto. }
    case_bool_decide as Hnone.
    { rewrite Hnone in Hnames. by apply elem_of_nil in Hnames. }
    eexists. split; [done|]. cbn. split; [done|]. split; [by left|done].
Qed.

Lemma projector_is_triggered_by_its_events_witness :
  ∃ rule, projector_rule "bus" "cart" "totals" ["added"; "removed"] = Some rule
          ∧ triggers rule (action_entry "bus" "cart" "removed" "42").
Proof.
  apply (projector_is_triggered_by_its_events
           "bus" "cart" "totals" ["added"; "removed"] "cart" "removed" "42").
  - apply (bool_decide_unpack _). by vm_compute.
  - apply (bool_decide_unpack _). by vm_compute.
  - split; [done|]. right. by left.
Defined.

(** X19. With stack types that hold no ".", the rule of [actionTrigger] for
    an action of a stack type is triggered by the entry of exactly that
    action of that stack type, on the same bus. *)
Theorem actionTrigger_is_triggered_by_its_action
    (name_ bus stackType action : string)
    (bus' stackType' actionType' itemId : string) :
  ¬ has_dot stackType → ¬ has_dot stackType' →
  triggers (actionTrigger_rule name_ bus stackType action)
           (action_entry bus' stackType' actionType' itemId)
  ↔ bus' = bus ∧ stackType' = stackType ∧ actionType' = action.
Proof.
  intros Hstack Hstack'. unfold triggers, actionTrigger_rule, action_entry.
  cbn. split.
  - intros (-> & _ & Hdetail). apply list_elem_of_singleton in Hdetail.
    apply dotted_inj in Hdetail as [-> ->]; done.
  - intros (-> & -> & ->). split; [done|]. split; by left.
Qed.

Lemma actionTrigger_is_triggered_by_its_action_witness :
  triggers (actionTrigger_rule "mail" "bus" "cart" "checkedOut")
           (action_entry "bus" "cart" "checkedOut" "42").
Proof.
  apply (actionTrigger_is_triggered_by_its_action
           "mail" "bus" "cart" "checkedOut" "bus" "cart" "checkedOut" "42").
  - apply (bool_decide_unpack _). by vm_compute.
  - apply (bool_decide_unpack _). by vm_compute.
  - done.
Defined.

End Platform.
